(** * Shallow embedding of [src/seance3/orbits.py]: the N-body force model,
    the orbital initializer and the frame loop of [play_orbit].

    Numbers of the Python program are IEEE doubles.  They are modelled by
    real numbers; a float value that may become non-finite (NaN or +-inf,
    which numpy produces with a warning rather than an exception) is modelled
    by [xR := option R], [None] standing for a non-finite value.  Non-finite
    values are absorbing under the operations used here ([+], [*], [sqrt]),
    which is what IEEE arithmetic does with them.  Rounding, overflow and
    underflow are not modelled. *)

From Stdlib Require Import Reals Psatz List Arith Lia ZArith.
Import ListNotations.
Open Scope R_scope.

(** ** Float values and Python outcomes *)

(** [None]: a NaN or infinite float. *)
Definition xR := option R.

Definition xadd (a b : xR) : xR :=
  match a, b with Some x, Some y => Some (x + y) | _, _ => None end.

Definition xmul (a b : xR) : xR :=
  match a, b with Some x, Some y => Some (x * y) | _, _ => None end.

(** Division of finite numbers: numpy returns inf or nan on a zero divisor. *)
Definition xdiv (a b : R) : xR :=
  if Req_EM_T b 0 then None else Some (a / b).

(** [np.sqrt]: nan on a negative argument, inf on inf. *)
Definition xsqrt (a : xR) : xR :=
  match a with
  | Some x => if Rlt_dec x 0 then None else Some (sqrt x)
  | None => None
  end.

(** [np.hypot]. *)
Definition hypot (x y : R) : R := sqrt (x ^ 2 + y ^ 2).

(** Exceptions that can leave the modelled functions.  [ArithmeticError e]
    is [ArithmeticError("...", e)], which carries the original exception. *)
Inductive exn : Type :=
  | DomainError
  | IntegrationError
  | ShapeError
  | ArithmeticError (inner : exn).

(** Outcome of a Python call: a returned value or a raised exception. *)
Inductive res (A : Type) : Type :=
  | Ret (a : A)
  | Raise (e : exn).
Arguments Ret {A} a.
Arguments Raise {A} e.

Definition bind {A B} (m : res A) (k : A -> res B) : res B :=
  match m with Ret a => k a | Raise e => Raise e end.

Notation "x <- m ;; k" := (bind m (fun x => k))
  (at level 61, m at next level, right associativity).

(** ** Constants *)

(** [const.G.value] (CODATA 2018, as shipped by astropy). *)
Definition G : R := 6.6743e-11.

(** ** Bodies *)

(** A planet or star dictionary: ["mass"], ["position"], ["speed"],
    ["trail"].  Display attributes are not modelled. *)
Record body := mkBody {
  mass : R;
  position : R * R;
  speed : R * R;
  trail : list (R * R)
}.

(** ** [vitesse_orbitale] (lines 42-60) *)

Definition vitesse_orbitale (planete etoile : body) : res (xR * xR) :=
  let '(x0, y0) := position planete in
  let r0 := sqrt (x0 ^ 2 + y0 ^ 2) in
  let m := mass planete in
  let M := mass etoile in
  let v := xsqrt (xdiv (G * (M + m)) r0) in
  let vx := xmul (xdiv (- y0) r0) v in
  let vy := xmul (xdiv x0 r0) v in
  Ret (vx, vy).

(** ** [equations_mouvement] (lines 78-113)

    The state is the flat vector [x0; y0; vx0; vy0; x1; ...]; [at_ st k] is
    [state[k]]. *)

Definition at_ (st : list R) (k : nat) : R := nth k st 0.

(** [planetes[j]["mass"]]. *)
Definition mass_of (planetes : list body) (j : nat) : R :=
  mass (nth j planetes (mkBody 0 (0, 0) (0, 0) [])).

(** The inner loop [for j in range(n)] for planet [i] at [(xi, yi)],
    accumulating into [(axi, ayi)]. *)
Fixpoint pair_loop (st : list R) (planetes : list body) (i : nat) (xi yi : R)
    (js : list nat) (axi ayi : xR) : xR * xR :=
  match js with
  | [] => (axi, ayi)
  | j :: js' =>
      if Nat.eqb i j then pair_loop st planetes i xi yi js' axi ayi
      else
        let xj := at_ st (4 * j)%nat in
        let yj := at_ st (4 * j + 1)%nat in
        let dx := xi - xj in
        let dy := yi - yj in
        let rij := hypot dx dy in
        if Req_EM_T rij 0 then pair_loop st planetes i xi yi js' axi ayi
        else
          let mj := mass_of planetes j in
          pair_loop st planetes i xi yi js'
            (xadd axi (xdiv (- G * mj * dx) (rij ^ 3)))
            (xadd ayi (xdiv (- G * mj * dy) (rij ^ 3)))
  end.

(** The body of [for i in range(n)]: the slice [dstate[4i:4i+4]]. *)
Definition block (st : list R) (planetes : list body) (M_star : R) (i : nat)
    : list xR :=
  let n := length planetes in
  let idx := (4 * i)%nat in
  let xi := at_ st idx in
  let yi := at_ st (idx + 1)%nat in
  let vxi := at_ st (idx + 2)%nat in
  let vyi := at_ st (idx + 3)%nat in
  let r := hypot xi yi in
  let axi := xdiv (- G * M_star * xi) (r ^ 3) in
  let ayi := xdiv (- G * M_star * yi) (r ^ 3) in
  let '(axi, ayi) := pair_loop st planetes i xi yi (seq 0 n) axi ayi in
  [Some vxi; Some vyi; axi; ayi].

(** A state shorter than [4n] makes the slice unpacking or an index raise
    ([ValueError] / [IndexError], here [ShapeError]); entries of [dstate]
    past [4n] keep the zero of [np.zeros_like]. *)
Definition equations_mouvement (t : R) (st : list R) (planetes : list body)
    (etoile : body) : res (list xR) :=
  let n := length planetes in
  if Nat.ltb (length st) (4 * n)%nat then Raise ShapeError
  else Ret (flat_map (block st planetes (mass etoile)) (seq 0 n)
            ++ repeat (Some 0) (length st - 4 * n)%nat).

(** The force law as the spec words it (section 4.3), to be compared with
    [block]: star term plus the sum over [j <> i] of the pairwise terms. *)
Definition pair_term_x (st : list R) (planetes : list body) (i j : nat) : R :=
  let xi := at_ st (4 * i)%nat in let yi := at_ st (4 * i + 1)%nat in
  let xj := at_ st (4 * j)%nat in let yj := at_ st (4 * j + 1)%nat in
  - G * mass_of planetes j * (xi - xj) / (hypot (xi - xj) (yi - yj)) ^ 3.

Definition pair_term_y (st : list R) (planetes : list body) (i j : nat) : R :=
  let xi := at_ st (4 * i)%nat in let yi := at_ st (4 * i + 1)%nat in
  let xj := at_ st (4 * j)%nat in let yj := at_ st (4 * j + 1)%nat in
  - G * mass_of planetes j * (yi - yj) / (hypot (xi - xj) (yi - yj)) ^ 3.

Definition others (n i : nat) : list nat :=
  filter (fun j => negb (Nat.eqb i j)) (seq 0 n).

Definition spec_accel (st : list R) (planetes : list body) (M_star : R)
    (i : nat) : R * R :=
  let n := length planetes in
  let xi := at_ st (4 * i)%nat in let yi := at_ st (4 * i + 1)%nat in
  let ri := hypot xi yi in
  (- G * M_star * xi / ri ^ 3
     + fold_right Rplus 0 (map (pair_term_x st planetes i) (others n i)),
   - G * M_star * yi / ri ^ 3
     + fold_right Rplus 0 (map (pair_term_y st planetes i) (others n i))).

(** Sample bodies used by the concrete checks below. *)
Definition sun : body := mkBody 2e30 (0, 0) (0, 0) [].
Definition earth_at (x y : R) : body := mkBody 6e24 (x, y) (0, 0) [].

(** ** The frame loop of [play_orbit] (lines 164-428)

    Drawing, fonts and the clock are not modelled.  What a frame's event
    polling contributes is summarised by [events]: the mouse x-coordinate of
    the last drag motion of each slider in that frame, if any.  A QUIT event
    ends the loop after the frame in which it arrives has run in full, so a
    run is a finite list of frames. *)

Definition WIDTH : R := 1200.
Definition HEIGHT : R := 900.
Definition SCALE : R := 2e-10.

Definition dt_min : R := 3600.
Definition dt_max : R := 3600 * 24 * 7.
Definition zoom_min : R := 0.5.
Definition zoom_max : R := 80.0.
Definition slider_x : R := 50.
Definition slider_w : R := 200.

Record events := mkEvents {
  ev_zoom_drag : option R;
  ev_dt_drag : option R
}.

Definition no_events : events := mkEvents None None.

(** [np.clip(a, lo, hi)]. *)
Definition clip (a lo hi : R) : R := Rmin (Rmax a lo) hi.

(** Lines 280-281 and 295-296: the target read off a slider drag. *)
Definition slider_value (vmin vmax mx : R) : R :=
  let relative_x := clip (mx - slider_x) 0 slider_w in
  vmin + (relative_x / slider_w) * (vmax - vmin).

(** Lines 200-204. *)
Definition clamp_dt (dt : R) : R :=
  if Rlt_dec dt_max dt then dt_max
  else if Rlt_dec dt dt_min then dt_min
  else dt.

(** Line 299. *)
Definition zoom_step (zoom zoom_target : R) : R :=
  zoom + 0.15 * (zoom_target - zoom).

(** Line 300. *)
Definition dt_step (dt dt_target : R) : R :=
  dt + 0.2 * (dt_target - dt).

(** Lines 372-374: [p["trail"].append((x,y))], then [pop(0)] past 400. *)
Definition trail_push (t : list (R * R)) (xy : R * R) : list (R * R) :=
  let t' := t ++ [xy] in
  if Nat.ltb 400 (length t') then tl t' else t'.

(** Lines 311-316: positions and speeds written back from the state. *)
Fixpoint write_back (st : list R) (k : nat) (pl : list body) : list body :=
  match pl with
  | [] => []
  | p :: pl' =>
      let idx := (4 * k)%nat in
      mkBody (mass p) (at_ st idx, at_ st (idx + 1)%nat)
        (at_ st (idx + 2)%nat, at_ st (idx + 3)%nat) (trail p)
      :: write_back st (S k) pl'
  end.

(** Lines 367-374, trail part: each planet records its current position. *)
Definition record_trail (p : body) : body :=
  mkBody (mass p) (position p) (speed p) (trail_push (trail p) (position p)).

(** What [solve_ivp] hands back: [sol.success] and [sol.y[:, -1]]. *)
Record ode_result := mkOde {
  success : bool;
  y_last : list R
}.

(** The simulation variables that live across frames. *)
Record sim := mkSim {
  planetes : list body;
  state : list R;
  zoom : R;
  zoom_target : R;
  dt : R;
  dt_target : R;
  hz_calls : nat
}.

Section Frame.

(** [sp.integrate.solve_ivp(equations_mouvement, tspan, state, ...,
    method='RK45', rtol=1e-6, atol=1e-8)], a library call: any function of
    the time span and the initial state. *)
Variable solve_ivp : R * R -> list R -> ode_result.

(** The caller's [func_zone_habitable], if supplied; [hz c] is the outcome
    of its [c]-th call ([c = 0] at setup, [c = k] in frame [k]), which a
    caller-supplied function may make depend on anything it keeps. *)
Variable func_zone_habitable : option (nat -> res (R * R)).

(** Lines 340-351: the per-frame call, caught and re-raised as
    [ArithmeticError]; the pixel radii only feed the drawing. *)
Definition hz_frame (c : nat) : res unit :=
  match func_zone_habitable with
  | None => Ret tt
  | Some hz =>
      match hz c with
      | Ret _ => Ret tt
      | Raise e => Raise (ArithmeticError e)
      end
  end.

(** Line 238: the setup call, not wrapped. *)
Definition hz_setup : res unit :=
  match func_zone_habitable with
  | None => Ret tt
  | Some hz => _ <- hz 0%nat ;; Ret tt
  end.

(** One iteration of [while running]. *)
Definition frame (w : sim) (ev : events) : res sim :=
  let zt := match ev_zoom_drag ev with
            | Some mx => slider_value zoom_min zoom_max mx
            | None => zoom_target w end in
  let dtt := match ev_dt_drag ev with
             | Some mx => slider_value dt_min dt_max mx
             | None => dt_target w end in
  let zoom' := zoom_step (zoom w) zt in
  let dt' := dt_step (dt w) dtt in
  let sol := solve_ivp (1e-10, dt') (state w) in
  let st := y_last sol in
  let pl := write_back st 0 (planetes w) in
  _ <- hz_frame (S (hz_calls w)) ;;
  Ret (mkSim (map record_trail pl) st zoom' zt dt' dtt (S (hz_calls w))).

Fixpoint run_frames (w : sim) (evs : list events) : res sim :=
  match evs with
  | [] => Ret w
  | ev :: evs' => w' <- frame w ev ;; run_frames w' evs'
  end.

(** [play_orbit] from its setup to the end of the given frames.  The
    initial state vector [state0] is the one built at lines 226-232 from
    the positions and the speeds of [vitesse_orbitale]. *)
Definition play_orbit (planetes0 : list body) (state0 : list R) (dt0 : R)
    (evs : list events) : res sim :=
  let dt := clamp_dt dt0 in
  let pl := map (fun p => mkBody (mass p) (position p) (speed p) []) planetes0 in
  _ <- hz_setup ;;
  run_frames (mkSim pl state0 1.0 1.0 dt dt 0) evs.

End Frame.

(** [int((w - c) * SCALE * zoom + half)]: Python's [int] truncates toward
    zero. *)
Definition trunc (r : R) : Z :=
  if Rle_dec 0 r then Int_part r else (- Int_part (- r))%Z.

(** Lines 369-370. *)
Definition to_screen (world center : R * R) (zoom : R) : Z * Z :=
  (trunc ((fst world - fst center) * SCALE * zoom + WIDTH / 2),
   trunc ((snd world - snd center) * SCALE * zoom + HEIGHT / 2)).

(** The inverse of the affine part of the transform. *)
Definition from_screen (screen : Z * Z) (center : R * R) (zoom : R) : R * R :=
  ((IZR (fst screen) - WIDTH / 2) / (SCALE * zoom) + fst center,
   (IZR (snd screen) - HEIGHT / 2) / (SCALE * zoom) + snd center).

(** A solver that always succeeds and returns its initial state; a solver
    that reports failure after having moved to some other state. *)
Definition solve_id (tspan : R * R) (y0 : list R) : ode_result := mkOde true y0.
Definition solve_fail (tspan : R * R) (y0 : list R) : ode_result :=
  mkOde false [5; 6; 7; 8].

(** A habitable-zone function that answers at setup and raises afterwards. *)
Definition hz_later_error (c : nat) : res (R * R) :=
  if Nat.eqb c 0 then Ret (1e11, 2e11) else Raise DomainError.

(** One planet at [(1, 0)], one day per frame, before the first frame. *)
Definition sim1 : sim := mkSim [earth_at 1 0] [1; 0; 0; 3e4] 1 1 86400 86400 0.

(** Every planet's trail holds at most 400 positions. *)
Definition trails_bounded (w : sim) : Prop :=
  Forall (fun p => (length (trail p) <= 400)%nat) (planetes w).

(** A time step within the slider's bounds. *)
Definition dt_in_range (d : R) : Prop := dt_min <= d <= dt_max.

(** The last [n] elements of a list. *)
Definition lastn {A} (n : nat) (l : list A) : list A := skipn (length l - n) l.

(** Iterated zoom smoothing with a fixed target. *)
Fixpoint zoom_iter (k : nat) (z zt : R) : R :=
  match k with 0%nat => z | S k' => zoom_step (zoom_iter k' z zt) zt end.

(** ** Utility functions of [orbits.py] (lines 10-40) *)

(** [barycentre]: [None] when [m1 + m2 = 0], where the float division
    raises [ZeroDivisionError]. *)
Definition barycentre (p1 p2 : body) : option (R * R) :=
  let m1 := mass p1 in
  let m2 := mass p2 in
  let '(x1, y1) := position p1 in
  let '(x2, y2) := position p2 in
  if Req_EM_T (m1 + m2) 0 then None
  else Some ((m1 * x1 + m2 * x2) / (m1 + m2), (m1 * y1 + m2 * y2) / (m1 + m2)).

(** [distance]. *)
Definition distance (p1 p2 : body) : R :=
  let dx := fst (position p1) - fst (position p2) in
  let dy := snd (position p1) - snd (position p2) in
  hypot dx dy.

(** A dictionary holding only a position, to measure a point with
    [distance]. *)
Definition point (xy : R * R) : body := mkBody 0 xy (0, 0) [].

(** [sum(f(x) for x in l)]. *)
Definition rsum {A} (f : A -> R) (l : list A) : R := fold_right Rplus 0 (map f l).

(** Lines 226-231: [state += p["position"]; state += p["speed"]] for each
    planet, in order. *)
Definition state_of (pl : list body) : list R :=
  flat_map (fun p => [fst (position p); snd (position p);
                      fst (speed p); snd (speed p)]) pl.

(** ** Buttons (lines 119-158) *)

(** A [pygame.Rect]; [collidepoint] excludes the right and bottom edges. *)
Record rect := mkRect { left : Z; top : Z; width : Z; height : Z }.

Definition collidepoint (r : rect) (x y : Z) : bool :=
  (left r <=? x)%Z && (x <? left r + width r)%Z &&
  (top r <=? y)%Z && (y <? top r + height r)%Z.

(** The list [draw_buttons] returns: button [i] is
    [Rect(x0, y0 + i*(h + padding), w, h)] with [x0, y0 = 50, 120],
    [w, h = 100, 25], [padding = 5]. *)
Fixpoint draw_buttons_from {A} (i : Z) (targets : list A) : list (rect * A) :=
  match targets with
  | [] => []
  | p :: ps => (mkRect 50 (120 + i * (25 + 5)) 100 25, p)
               :: draw_buttons_from (i + 1)%Z ps
  end.

Definition draw_buttons {A} (targets : list A) : list (rect * A) :=
  draw_buttons_from 0%Z targets.

Fixpoint check_button_click {A} (buttons : list (rect * A)) (x y : Z) : option A :=
  match buttons with
  | [] => None
  | (r, p) :: bs => if collidepoint r x y then Some p else check_button_click bs x y
  end.

(** ** Sliders and camera *)

(** Lines 268, 286, 330, 355: the handle's x-coordinate for a target. *)
Definition handle_x (vmin vmax target : R) : R :=
  slider_x + (target - vmin) / (vmax - vmin) * slider_w.

(** [camera_target]: a planet (by its index in [planetes], whose dictionary
    the button holds) or the star; [None] follows the origin. *)
Inductive target := TPlanet (i : nat) | TStar.

(** Lines 321-324. *)
Definition camera_center (pl : list body) (etoile : body) (t : option target)
    : R * R :=
  match t with
  | None => (0, 0)
  | Some (TPlanet i) => position (nth i pl (mkBody 0 (0, 0) (0, 0) []))
  | Some TStar => position etoile
  end.

(** Zoom and its target within the zoom slider's bounds. *)
Definition zoom_in_range (z : R) : Prop := zoom_min <= z <= zoom_max.

(** ** [src/seance4/fonctions_seance1.py]

    Constants of [astropy.constants] (CODATA 2018, SI). *)
Definition h_planck : R := 6.62607015e-34.
Definition c_light : R := 299792458.
Definition k_B : R := 1.380649e-23.
Definition sigma : R := 5.670374419e-8.
Definition b_wien : R := 2.898e-3.

Definition stefan_law (T Rad : R) : R := 4 * PI * Rad ^ 2 * sigma * T ^ 4.

(** Modelled for [T <> 0]. *)
Definition wien_law (T : R) : R := b_wien / T.

(** The second, identical definition of [planck_law] is the one in force. *)
Definition planck_law (lam T : R) : R :=
  (2 * h_planck * c_light ^ 2)
    / (lam ^ 5 * (exp ((h_planck * c_light) / (lam * k_B * T)) - 1)).

(** * Properties *)

(** ** Force model lemmas *)

Lemma hypot_nonneg x y : 0 <= hypot x y.
Proof. apply sqrt_pos. Qed.

Lemma hypot_sq x y : hypot x y * hypot x y = x ^ 2 + y ^ 2.
Proof. unfold hypot. apply sqrt_sqrt. nra. Qed.

Lemma hypot_zero x y : hypot x y = 0 -> x = 0 /\ y = 0.
Proof.
  intro H. pose proof (hypot_sq x y) as Hs. rewrite H in Hs.
  split; nra.
Qed.

Lemma xdiv_pow3 a r : r <> 0 -> xdiv a (r ^ 3) = Some (a / r ^ 3).
Proof.
  intro Hr. unfold xdiv. destruct (Req_EM_T (r ^ 3) 0) as [E|]; [|reflexivity].
  exfalso. apply (pow_nonzero r 3 Hr E).
Qed.

Lemma pair_loop_sum st planetes i xi yi js ax ay :
  xi = at_ st (4 * i)%nat -> yi = at_ st (4 * i + 1)%nat ->
  pair_loop st planetes i xi yi js (Some ax) (Some ay) =
  (Some (ax + fold_right Rplus 0
               (map (pair_term_x st planetes i)
                  (filter (fun j => negb (Nat.eqb i j)) js))),
   Some (ay + fold_right Rplus 0
               (map (pair_term_y st planetes i)
                  (filter (fun j => negb (Nat.eqb i j)) js)))).
Proof.
  intros -> ->. revert ax ay.
  induction js as [|j js IH]; intros ax ay; cbn [pair_loop filter].
  - cbn [map fold_right]. f_equal; f_equal; ring.
  - destruct (Nat.eqb i j) eqn:Eij; cbn [negb]; [apply IH|].
    cbn [map fold_right].
    destruct (Req_EM_T _ 0) as [E|E].
    + apply hypot_zero in E as [Ex Ey].
      assert (Tx : pair_term_x st planetes i j = 0)
        by (unfold pair_term_x; cbv zeta; rewrite Ex; unfold Rdiv; ring).
      assert (Ty : pair_term_y st planetes i j = 0)
        by (unfold pair_term_y; cbv zeta; rewrite Ey; unfold Rdiv; ring).
      rewrite IH, Tx, Ty. f_equal; f_equal; ring.
    + rewrite !xdiv_pow3 by exact E. cbn [xadd]. rewrite IH.
      f_equal; f_equal; unfold pair_term_x, pair_term_y; cbv zeta; ring.
Qed.

Lemma nth_flat_map4 {A} (f : nat -> list A) (l : list nat) (rest : list A)
    (d : A) i k :
  (forall x, length (f x) = 4%nat) -> (i < length l)%nat -> (k < 4)%nat ->
  nth (4 * i + k) (flat_map f l ++ rest) d = nth k (f (nth i l 0%nat)) d.
Proof.
  intros Hf. revert i. induction l as [|a l IH]; intros i Hi Hk.
  - simpl in Hi. lia.
  - cbn [flat_map]. rewrite <- app_assoc. destruct i as [|i]; cbn [nth].
    + replace (4 * 0 + k)%nat with k by lia.
      rewrite app_nth1 by (rewrite Hf; lia). reflexivity.
    + rewrite app_nth2 by (rewrite Hf; lia). rewrite Hf.
      replace (4 * S i + k - 4)%nat with (4 * i + k)%nat by lia.
      apply IH; simpl in Hi; lia.
Qed.

Lemma block_length st planetes M i : length (block st planetes M i) = 4%nat.
Proof.
  unfold block. destruct (pair_loop _ _ _ _ _ _ _ _). reflexivity.
Qed.

Lemma flat_map_block_length st planetes M n :
  length (flat_map (block st planetes M) (seq 0 n)) = (4 * n)%nat.
Proof.
  rewrite flat_map_concat_map, length_concat, map_map.
  induction n as [|n IH]; [reflexivity|].
  rewrite seq_S, map_app, list_sum_app. simpl. rewrite IH, block_length. lia.
Qed.

Lemma block_spec st planetes M i :
  hypot (at_ st (4 * i)%nat) (at_ st (4 * i + 1)%nat) <> 0 ->
  block st planetes M i =
  [Some (at_ st (4 * i + 2)%nat); Some (at_ st (4 * i + 3)%nat);
   Some (fst (spec_accel st planetes M i));
   Some (snd (spec_accel st planetes M i))].
Proof.
  intro Hr. unfold block, spec_accel, others.
  rewrite !xdiv_pow3 by exact Hr.
  rewrite pair_loop_sum by reflexivity. reflexivity.
Qed.

Lemma equations_mouvement_ret t st planetes etoile :
  length st = (4 * length planetes)%nat ->
  equations_mouvement t st planetes etoile =
  Ret (flat_map (block st planetes (mass etoile)) (seq 0 (length planetes))).
Proof.
  intro Hl. unfold equations_mouvement. rewrite Hl.
  rewrite (proj2 (Nat.ltb_ge _ _)) by lia.
  rewrite Nat.sub_diag, app_nil_r. reflexivity.
Qed.

Lemma two_body_accel (M x y : R) :
  hypot x y <> 0 -> 0 < M ->
  let r := hypot x y in
  exists k, 0 < k /\ - G * M * x / r ^ 3 = - k * x /\
    - G * M * y / r ^ 3 = - k * y /\
    hypot (- G * M * x / r ^ 3) (- G * M * y / r ^ 3) = G * M / r ^ 2.
Proof.
  intros Hr HM r.
  assert (Hr0 : 0 < r) by (pose proof (hypot_nonneg x y); unfold r; lra).
  assert (HG : 0 < G) by (unfold G; lra).
  exists (G * M / r ^ 3). split; [|split; [|split]].
  - apply Rdiv_lt_0_compat; [nra | apply pow_lt; exact Hr0].
  - field. lra.
  - field. lra.
  - unfold hypot at 1.
    replace ((- G * M * x / r ^ 3) ^ 2 + (- G * M * y / r ^ 3) ^ 2)
      with ((G * M / r ^ 2) * (G * M / r ^ 2)).
    + apply sqrt_square. apply Rlt_le, Rdiv_lt_0_compat; [nra|].
      apply pow_lt; exact Hr0.
    + pose proof (hypot_sq x y) as Hs. fold r in Hs.
      transitivity ((G * M) ^ 2 * (x ^ 2 + y ^ 2) / r ^ 6).
      * rewrite <- Hs. field. lra.
      * field. lra.
Qed.

Lemma in_seq_lt n x : In x (seq 0 n) -> (x < n)%nat.
Proof. intro H. apply in_seq in H. lia. Qed.

(** ** Claims about the force model *)

(** C1: on a state of length [4n] with every planet away from the origin,
    [equations_mouvement] returns a derivative whose slots [4i], [4i+1] copy
    planet [i]'s velocity and whose slots [4i+2], [4i+3] hold
    [-G M_star r_i/|r_i|^3 + sum_{j<>i} -G m_j (r_i-r_j)/|r_i-r_j|^3];
    for a single planet this is [-G M_star r/|r|^3], pointing to the origin
    with magnitude [G M_star/|r|^2]. *)
Theorem equations_mouvement_force_law (t : R) (st : list R)
    (planetes : list body) (etoile : body) :
  length st = (4 * length planetes)%nat ->
  (forall i, (i < length planetes)%nat ->
     hypot (at_ st (4 * i)%nat) (at_ st (4 * i + 1)%nat) <> 0) ->
  exists d, equations_mouvement t st planetes etoile = Ret d /\
    length d = length st /\
    (forall i, (i < length planetes)%nat ->
       nth (4 * i) d None = Some (at_ st (4 * i + 2)%nat) /\
       nth (4 * i + 1) d None = Some (at_ st (4 * i + 3)%nat) /\
       nth (4 * i + 2) d None = Some (fst (spec_accel st planetes (mass etoile) i)) /\
       nth (4 * i + 3) d None = Some (snd (spec_accel st planetes (mass etoile) i))) /\
    (length planetes = 1%nat ->
       let x := at_ st 0 in let y := at_ st 1 in let r := hypot x y in
       d = [Some (at_ st 2); Some (at_ st 3);
            Some (- G * mass etoile * x / r ^ 3);
            Some (- G * mass etoile * y / r ^ 3)] /\
       (0 < mass etoile ->
          exists k, 0 < k /\ - G * mass etoile * x / r ^ 3 = - k * x /\
            - G * mass etoile * y / r ^ 3 = - k * y /\
            hypot (- G * mass etoile * x / r ^ 3) (- G * mass etoile * y / r ^ 3)
              = G * mass etoile / r ^ 2)).
Proof.
  intros Hl Hr.
  eexists. split; [apply equations_mouvement_ret; exact Hl|].
  split; [rewrite flat_map_block_length; lia|]. split.
  - intros i Hi.
    assert (Hn : forall k, (k < 4)%nat ->
      nth (4 * i + k) (flat_map (block st planetes (mass etoile))
                         (seq 0 (length planetes))) None
      = nth k (block st planetes (mass etoile) i) None).
    { intros k Hk.
      rewrite <- (app_nil_r (flat_map _ _)).
      rewrite nth_flat_map4; [|apply block_length|rewrite length_seq; exact Hi|exact Hk].
      rewrite seq_nth by exact Hi. reflexivity. }
    rewrite block_spec in Hn by (apply Hr; exact Hi).
    pose proof (Hn 0%nat ltac:(lia)) as H0.
    pose proof (Hn 1%nat ltac:(lia)) as H1.
    pose proof (Hn 2%nat ltac:(lia)) as H2.
    pose proof (Hn 3%nat ltac:(lia)) as H3.
    rewrite Nat.add_0_r in H0. cbn [nth] in H0, H1, H2, H3.
    repeat split; assumption.
  - intros H1 x y r.
    assert (Hb : flat_map (block st planetes (mass etoile)) (seq 0 (length planetes))
                 = block st planetes (mass etoile) 0).
    { rewrite H1. simpl. apply app_nil_r. }
    assert (Hr0 : hypot x y <> 0) by (apply (Hr 0%nat); lia).
    rewrite Hb, block_spec by exact Hr0.
    unfold spec_accel, others. rewrite H1. cbn [seq filter Nat.eqb negb map fold_right fst snd].
    split.
    + rewrite !Rplus_0_r. reflexivity.
    + intro HM. apply two_body_accel; assumption.
Qed.

(** C2: if two distinct planets occupy the same position and every planet is
    away from the origin, every entry of the derivative is finite (no NaN or
    inf): the coincident pair is skipped, its force counted as zero. *)
Theorem equations_mouvement_coincident_finite (t : R) (st : list R)
    (planetes : list body) (etoile : body) (i j : nat) :
  length st = (4 * length planetes)%nat ->
  i <> j -> (i < length planetes)%nat -> (j < length planetes)%nat ->
  at_ st (4 * i)%nat = at_ st (4 * j)%nat ->
  at_ st (4 * i + 1)%nat = at_ st (4 * j + 1)%nat ->
  (forall k, (k < length planetes)%nat ->
     hypot (at_ st (4 * k)%nat) (at_ st (4 * k + 1)%nat) <> 0) ->
  exists d, equations_mouvement t st planetes etoile = Ret d /\
    Forall (fun v => v <> None) d /\
    pair_term_x st planetes i j = 0 /\ pair_term_y st planetes i j = 0.
Proof.
  intros Hl Hij Hi Hj Ex Ey Hr.
  eexists. split; [apply equations_mouvement_ret; exact Hl|]. split; [|split].
  - apply Forall_forall. intros v Hv.
    apply in_flat_map in Hv as [k [Hk Hv]].
    apply in_seq_lt in Hk.
    rewrite block_spec in Hv by (apply Hr; exact Hk).
    simpl in Hv. intuition (subst; discriminate).
  - unfold pair_term_x. cbv zeta. rewrite Ex. unfold Rdiv, Rminus. ring.
  - unfold pair_term_y. cbv zeta. rewrite Ey. unfold Rdiv, Rminus. ring.
Qed.

Lemma hypot_1_0 : hypot 1 0 <> 0.
Proof.
  unfold hypot. replace (1 ^ 2 + 0 ^ 2) with 1 by ring. rewrite sqrt_1. lra.
Qed.

Lemma equations_mouvement_force_law_witness :
  exists d, equations_mouvement 0 [1; 0; 0; 3e4] [earth_at 1 0] sun = Ret d /\
    length d = 4%nat.
Proof.
  destruct (equations_mouvement_force_law 0 [1; 0; 0; 3e4] [earth_at 1 0] sun)
    as [d [Hd [Hlen _]]].
  - reflexivity.
  - intros i Hi. destruct i as [|i]; [exact hypot_1_0|simpl in Hi; lia].
  - exists d. split; [exact Hd|exact Hlen].
Defined.

Lemma equations_mouvement_coincident_finite_witness :
  exists d, equations_mouvement 0 [1; 0; 0; 3e4; 1; 0; 0; 3e4]
              [earth_at 1 0; earth_at 1 0] sun = Ret d /\
    Forall (fun v => v <> None) d.
Proof.
  destruct (equations_mouvement_coincident_finite 0 [1; 0; 0; 3e4; 1; 0; 0; 3e4]
              [earth_at 1 0; earth_at 1 0] sun 0 1) as [d [Hd [Hf _]]].
  - reflexivity.
  - lia.
  - simpl; lia.
  - simpl; lia.
  - reflexivity.
  - reflexivity.
  - intros k Hk. destruct k as [|[|k]]; [exact hypot_1_0|exact hypot_1_0|simpl in Hk; lia].
  - exists d. split; [exact Hd|exact Hf].
Defined.

(** ** Claims about the orbital initializer *)

(** C3: for a planet at [(x0, y0)] with [r0 > 0] and positive masses,
    [vitesse_orbitale] returns [v (-y0/r0, x0/r0)] with
    [v = sqrt (G (M + m) / r0)], a velocity orthogonal to the radius vector
    and of norm [v]. *)
Theorem vitesse_orbitale_circular (planete etoile : body) (x0 y0 : R) :
  position planete = (x0, y0) -> 0 < sqrt (x0 ^ 2 + y0 ^ 2) ->
  0 < mass planete -> 0 < mass etoile ->
  let r0 := sqrt (x0 ^ 2 + y0 ^ 2) in
  let v := sqrt (G * (mass etoile + mass planete) / r0) in
  vitesse_orbitale planete etoile = Ret (Some (v * (- y0 / r0)), Some (v * (x0 / r0))) /\
  (v * (- y0 / r0)) * x0 + (v * (x0 / r0)) * y0 = 0 /\
  hypot (v * (- y0 / r0)) (v * (x0 / r0)) = v.
Proof.
  intros Hp Hr Hm HM r0 v.
  assert (HG : 0 < G) by (unfold G; lra).
  assert (Hr0 : r0 <> 0) by (unfold r0; lra).
  assert (Hq : 0 <= G * (mass etoile + mass planete) / r0)
    by (apply Rlt_le, Rdiv_lt_0_compat; [nra|exact Hr]).
  assert (Hsq : r0 * r0 = x0 ^ 2 + y0 ^ 2) by (apply sqrt_sqrt; nra).
  assert (Hv : 0 <= v) by apply sqrt_pos.
  split; [|split].
  - unfold vitesse_orbitale. rewrite Hp. fold r0.
    unfold xdiv. destruct (Req_EM_T r0 0) as [E|_]; [contradiction|].
    cbn [xsqrt]. destruct (Rlt_dec _ 0) as [L|_]; [lra|].
    cbn [xmul]. fold v. f_equal; f_equal; f_equal; ring.
  - field. exact Hr0.
  - unfold hypot.
    replace ((v * (- y0 / r0)) ^ 2 + (v * (x0 / r0)) ^ 2) with (v * v).
    + apply sqrt_square. exact Hv.
    + transitivity (v * v * ((x0 ^ 2 + y0 ^ 2) / (r0 * r0))).
      * rewrite Hsq. field. intro E. apply Hr0.
        assert (E' : x0 ^ 2 + y0 ^ 2 = 0) by exact E.
        unfold r0. rewrite E'. apply sqrt_0.
      * field. exact Hr0.
Qed.

(** C4 (counterexample): at the star's position, [vitesse_orbitale] raises
    no [DomainError]; it returns two non-finite components. *)
Lemma vitesse_orbitale_at_origin_no_error :
  vitesse_orbitale (earth_at 0 0) sun = Ret (None, None) /\
  vitesse_orbitale (earth_at 0 0) sun <> Raise DomainError.
Proof.
  assert (E : vitesse_orbitale (earth_at 0 0) sun = Ret (None, None)).
  { unfold vitesse_orbitale. cbn [position earth_at].
    replace (sqrt (0 ^ 2 + 0 ^ 2)) with 0
      by (replace (0 ^ 2 + 0 ^ 2) with 0 by ring; symmetry; apply sqrt_0).
    unfold xdiv. destruct (Req_EM_T 0 0) as [_|N]; [reflexivity|lra]. }
  split; [exact E|]. rewrite E. discriminate.
Qed.

(** C4 (amended): [vitesse_orbitale] does not check [r0]: for a planet at
    the star's position it raises nothing and returns a velocity whose two
    components are non-finite (NaN). *)
Theorem vitesse_orbitale_at_origin (m : R) (s : R * R) (tr : list (R * R))
    (etoile : body) :
  vitesse_orbitale (mkBody m (0, 0) s tr) etoile = Ret (None, None).
Proof.
  unfold vitesse_orbitale. cbn [position].
  replace (sqrt (0 ^ 2 + 0 ^ 2)) with 0
    by (replace (0 ^ 2 + 0 ^ 2) with 0 by ring; symmetry; apply sqrt_0).
  unfold xdiv. destruct (Req_EM_T 0 0) as [_|N]; [reflexivity|lra].
Qed.

Lemma vitesse_orbitale_circular_witness :
  let r0 := sqrt (1 ^ 2 + 0 ^ 2) in
  let v := sqrt (G * (mass sun + mass (earth_at 1 0)) / r0) in
  vitesse_orbitale (earth_at 1 0) sun = Ret (Some (v * (- 0 / r0)), Some (v * (1 / r0))).
Proof.
  assert (Hr : 0 < sqrt (1 ^ 2 + 0 ^ 2)).
  { replace (1 ^ 2 + 0 ^ 2) with 1 by ring. rewrite sqrt_1. lra. }
  destruct (vitesse_orbitale_circular (earth_at 1 0) sun 1 0 eq_refl Hr)
    as [H _]; [simpl; lra|simpl; lra|].
  exact H.
Defined.

(** ** The frame loop: errors *)

Lemma frame_eq solve hzo w ev :
  frame solve hzo w ev =
  let zt := match ev_zoom_drag ev with
            | Some mx => slider_value zoom_min zoom_max mx
            | None => zoom_target w end in
  let dtt := match ev_dt_drag ev with
             | Some mx => slider_value dt_min dt_max mx
             | None => dt_target w end in
  let dt' := dt_step (dt w) dtt in
  let st := y_last (solve (1e-10, dt') (state w)) in
  match hz_frame hzo (S (hz_calls w)) with
  | Ret _ => Ret (mkSim (map record_trail (write_back st 0 (planetes w))) st
                   (zoom_step (zoom w) zt) zt dt' dtt (S (hz_calls w)))
  | Raise e => Raise e
  end.
Proof. unfold frame. destruct (hz_frame hzo _); reflexivity. Qed.

Lemma hz_frame_ok hz c v : hz c = Ret v -> hz_frame (Some hz) c = Ret tt.
Proof. intro H. unfold hz_frame. rewrite H. reflexivity. Qed.

Lemma hz_frame_raise hz c e :
  hz c = Raise e -> hz_frame (Some hz) c = Raise (ArithmeticError e).
Proof. intro H. unfold hz_frame. rewrite H. reflexivity. Qed.

Lemma run_frames_hz_raise solve hz evs w k e :
  (forall c, (hz_calls w < c < k)%nat -> exists v, hz c = Ret v) ->
  hz k = Raise e ->
  (hz_calls w < k <= hz_calls w + length evs)%nat ->
  run_frames solve (Some hz) w evs = Raise (ArithmeticError e).
Proof.
  revert w. induction evs as [|ev evs IH]; intros w Hok He Hk; cbn [length] in Hk.
  - lia.
  - cbn [run_frames]. rewrite frame_eq. cbv zeta.
    destruct (Nat.eq_dec (S (hz_calls w)) k) as [->|Hne].
    + rewrite (hz_frame_raise _ _ _ He). reflexivity.
    + destruct (Hok (S (hz_calls w))) as [v Hv]; [lia|].
      rewrite (hz_frame_ok _ _ _ Hv). cbn [bind].
      apply IH; cbn [hz_calls]; [intros c Hc; apply Hok; lia|exact He|lia].
Qed.

Lemma hz_frame_not_integration hzo c : hz_frame hzo c <> Raise IntegrationError.
Proof.
  unfold hz_frame. destruct hzo as [hz|]; [|discriminate].
  destruct (hz c); discriminate.
Qed.

(** C5 (counterexample): a [DomainError] raised by the habitable-zone
    function in the first frame leaves [play_orbit] as an
    [ArithmeticError] wrapping it, not as the [DomainError] itself. *)
Lemma play_orbit_hz_error_rewrapped :
  play_orbit solve_id (Some hz_later_error) [] [] 86400 [no_events]
    = Raise (ArithmeticError DomainError) /\
  play_orbit solve_id (Some hz_later_error) [] [] 86400 [no_events]
    <> Raise DomainError.
Proof.
  assert (E : play_orbit solve_id (Some hz_later_error) [] [] 86400 [no_events]
                = Raise (ArithmeticError DomainError)) by reflexivity.
  split; [exact E|]. rewrite E. discriminate.
Qed.

(** C5 (amended): an exception [e] raised by the habitable-zone function
    at its setup call leaves [play_orbit] unmodified; raised during the
    per-frame evaluation of frame [k] (all earlier calls having returned),
    it is caught and re-raised as [ArithmeticError] carrying [e]: the run
    ends with that exception, no fallback value is substituted. *)
Theorem play_orbit_hz_error (solve : R * R -> list R -> ode_result)
    (hz : nat -> res (R * R)) (pl : list body) (st0 : list R) (dt0 : R)
    (evs : list events) (e : exn) :
  (hz 0%nat = Raise e -> play_orbit solve (Some hz) pl st0 dt0 evs = Raise e) /\
  (forall k, (0 < k <= length evs)%nat ->
     (forall c, (c < k)%nat -> exists v, hz c = Ret v) ->
     hz k = Raise e ->
     play_orbit solve (Some hz) pl st0 dt0 evs = Raise (ArithmeticError e)).
Proof.
  split.
  - intro H0. unfold play_orbit, hz_setup. rewrite H0. reflexivity.
  - intros k Hk Hok He. unfold play_orbit, hz_setup.
    destruct (Hok 0%nat) as [v0 H0]; [lia|]. rewrite H0. cbn [bind].
    apply (run_frames_hz_raise _ _ _ _ k); cbn [hz_calls];
      [intros c Hc; apply Hok; lia|exact He|lia].
Qed.

Lemma play_orbit_hz_error_witness :
  play_orbit solve_id (Some hz_later_error) [] [] 86400 [no_events]
    = Raise (ArithmeticError DomainError).
Proof.
  apply (proj2 (play_orbit_hz_error solve_id hz_later_error [] [] 86400
                  [no_events] DomainError) 1%nat).
  - simpl. lia.
  - intros c Hc. destruct c as [|c]; [eexists; reflexivity|lia].
  - reflexivity.
Defined.

(** C6 (counterexample): the solver reports failure ([success = false]);
    the frame raises no [IntegrationError] and the state vector and the
    planet's position and speed are overwritten with the solver's last
    state. *)
Lemma frame_solver_failure_applied :
  exists w', frame solve_fail None sim1 no_events = Ret w' /\
    state w' = [5; 6; 7; 8] /\ state w' <> state sim1 /\
    map position (planetes w') = [(5, 6)] /\ map speed (planetes w') = [(7, 8)].
Proof.
  eexists. split; [reflexivity|]. cbn.
  split; [reflexivity|]. split; [|split; reflexivity].
  intro H. injection H as H1. lra.
Qed.

(** C6 (amended): a frame never raises [IntegrationError]; whatever the
    solver's success flag, a completed frame replaces the state vector by
    the solver's last state [sol.y[:, -1]] and writes every planet's
    position and speed from it. *)
Theorem frame_ignores_solver_status (solve : R * R -> list R -> ode_result)
    (hzo : option (nat -> res (R * R))) (w : sim) (ev : events) :
  frame solve hzo w ev <> Raise IntegrationError /\
  (forall w', frame solve hzo w ev = Ret w' ->
     state w' = y_last (solve (1e-10, dt w') (state w)) /\
     planetes w' = map record_trail (write_back (state w') 0 (planetes w))).
Proof.
  rewrite frame_eq. cbv zeta.
  pose proof (hz_frame_not_integration hzo (S (hz_calls w))) as Hn.
  destruct (hz_frame hzo _) as [u|e'].
  - split; [discriminate|]. intros w' H. injection H as <-. split; reflexivity.
  - split; [intro H; injection H as ->; contradiction|discriminate].
Qed.

Lemma frame_ignores_solver_status_witness :
  exists w', frame solve_fail None sim1 no_events = Ret w' /\
    state w' = y_last (solve_fail (1e-10, dt w') (state sim1)).
Proof.
  exists (mkSim (map record_trail (write_back [5; 6; 7; 8] 0 (planetes sim1)))
            [5; 6; 7; 8] (zoom_step 1 1) 1 (dt_step 86400 86400) 86400 1).
  assert (H : frame solve_fail None sim1 no_events =
    Ret (mkSim (map record_trail (write_back [5; 6; 7; 8] 0 (planetes sim1)))
            [5; 6; 7; 8] (zoom_step 1 1) 1 (dt_step 86400 86400) 86400 1))
    by reflexivity.
  split; [exact H|].
  exact (proj1 (proj2 (frame_ignores_solver_status solve_fail None sim1 no_events) _ H)).
Defined.

(** ** Trails *)

Lemma lastn_short {A} (l : list A) : (length l <= 400)%nat -> lastn 400 l = l.
Proof.
  intro H. unfold lastn. replace (length l - 400)%nat with 0%nat by lia. reflexivity.
Qed.

Lemma length_lastn {A} n (l : list A) : length (lastn n l) = Nat.min n (length l).
Proof. unfold lastn. rewrite length_skipn. lia. Qed.

Lemma trail_push_lastn (l : list (R * R)) xy :
  trail_push (lastn 400 l) xy = lastn 400 (l ++ [xy]).
Proof.
  unfold trail_push. rewrite length_app, length_lastn. cbn [length].
  destruct (Nat.ltb_spec 400 (Nat.min 400 (length l) + 1)) as [Hlt|Hge].
  - assert (Hl : (400 <= length l)%nat) by lia.
    unfold lastn. rewrite length_app. cbn [length].
    replace (length l + 1 - 400)%nat with (1 + (length l - 400))%nat by lia.
    rewrite <- skipn_skipn, skipn_app.
    replace (length l - 400 - length l)%nat with 0%nat by lia.
    cbn [skipn]. destruct (skipn (length l - 400) l ++ [xy]); reflexivity.
  - rewrite lastn_short by lia. rewrite lastn_short; [reflexivity|].
    rewrite length_app. cbn [length]. lia.
Qed.

Lemma fold_trail_push ps (l : list (R * R)) :
  fold_left trail_push ps (lastn 400 l) = lastn 400 (l ++ ps).
Proof.
  revert l. induction ps as [|p ps IH]; intro l; cbn [fold_left].
  - rewrite app_nil_r. reflexivity.
  - rewrite trail_push_lastn, IH, <- app_assoc. reflexivity.
Qed.

Lemma trail_push_bound t xy :
  (length t <= 400)%nat -> (length (trail_push t xy) <= 400)%nat.
Proof.
  intro H. rewrite <- (lastn_short t H), trail_push_lastn, length_lastn. lia.
Qed.

Lemma write_back_trails st k pl : map trail (write_back st k pl) = map trail pl.
Proof.
  revert k. induction pl as [|p pl IH]; intro k; cbn; [reflexivity|].
  f_equal. apply IH.
Qed.

Lemma frame_trails_bounded solve hzo w ev w' :
  trails_bounded w -> frame solve hzo w ev = Ret w' -> trails_bounded w'.
Proof.
  intros Hb Hf. rewrite frame_eq in Hf. cbv zeta in Hf.
  destruct (hz_frame hzo _); [|discriminate].
  injection Hf as <-. unfold trails_bounded in *. cbn [planetes].
  apply Forall_map. unfold record_trail. cbn [trail].
  apply Forall_forall. intros p Hp. apply trail_push_bound.
  assert (Ht : In (trail p) (map trail (planetes w))).
  { erewrite <- write_back_trails. apply in_map. exact Hp. }
  apply in_map_iff in Ht as [q [Hq Hin]].
  rewrite Forall_forall in Hb. rewrite <- Hq. apply Hb. exact Hin.
Qed.

Lemma run_frames_trails_bounded solve hzo evs w w' :
  trails_bounded w -> run_frames solve hzo w evs = Ret w' -> trails_bounded w'.
Proof.
  revert w. induction evs as [|ev evs IH]; intros w Hb Hr; cbn [run_frames] in Hr.
  - injection Hr as <-. exact Hb.
  - destruct (frame solve hzo w ev) as [w1|e] eqn:Hf; [|discriminate].
    cbn [bind] in Hr. apply (IH w1); [|exact Hr].
    apply (frame_trails_bounded _ _ _ _ _ Hb Hf).
Qed.

(** C7: a trail that holds at most 400 positions, fed positions one at a
    time by [trail_push], holds the last 400 of them in order (oldest
    first); 500 pushes on an empty trail leave exactly the 400 most recent;
    and along any run of [play_orbit] every planet's trail holds at most
    400 positions. *)
Theorem trail_buffer_fifo :
  (forall (t ps : list (R * R)), (length t <= 400)%nat ->
     fold_left trail_push ps t = lastn 400 (t ++ ps) /\
     (length (fold_left trail_push ps t) <= 400)%nat) /\
  (forall ps : list (R * R), length ps = 500%nat ->
     fold_left trail_push ps [] = skipn 100 ps /\
     length (fold_left trail_push ps []) = 400%nat) /\
  (forall solve hzo pl st0 dt0 evs w,
     play_orbit solve hzo pl st0 dt0 evs = Ret w -> trails_bounded w).
Proof.
  split; [|split].
  - intros t ps Ht.
    assert (E : fold_left trail_push ps t = lastn 400 (t ++ ps)).
    { rewrite <- (lastn_short t Ht) at 1. apply fold_trail_push. }
    rewrite E. split; [reflexivity|]. rewrite length_lastn. lia.
  - intros ps Hps. change (@nil (R * R)) with (lastn 400 (@nil (R * R))).
    rewrite fold_trail_push. cbn [app]. unfold lastn. rewrite Hps.
    split; [reflexivity|]. rewrite length_skipn. lia.
  - intros solve hzo pl st0 dt0 evs w H. unfold play_orbit in H.
    destruct (hz_setup hzo) as [u|e]; [|discriminate]. cbn [bind] in H.
    refine (run_frames_trails_bounded _ _ _ _ _ _ H).
    unfold trails_bounded. cbn [planetes]. apply Forall_map.
    apply Forall_forall. intros p _. cbn. lia.
Qed.

Lemma trail_buffer_fifo_witness :
  fold_left trail_push [(1, 0)] [] = [(1, 0)].
Proof.
  exact (proj1 (proj1 trail_buffer_fifo [] [(1, 0)] (Nat.le_0_l 400))).
Defined.

(** ** Zoom smoothing *)

Lemma zoom_iter_closed k z zt :
  zoom_iter k z zt = zt - 0.85 ^ k * (zt - z).
Proof.
  induction k as [|k IH]; cbn [zoom_iter pow].
  - ring.
  - rewrite IH. unfold zoom_step. rewrite Rmult_assoc.
    set (A := 0.85 ^ k * (zt - z)). lra.
Qed.

Lemma zoom_iter_cv z zt : Un_cv (fun k => zoom_iter k z zt) zt.
Proof.
  intros eps Heps. unfold R_dist.
  destruct (Req_dec (zt - z) 0) as [E|Hc].
  - exists 0%nat. intros k _. rewrite zoom_iter_closed, E.
    replace (zt - 0.85 ^ k * 0 - zt) with 0 by ring. rewrite Rabs_R0. exact Heps.
  - assert (Ha : 0 < Rabs (zt - z)) by (apply Rabs_pos_lt; exact Hc).
    destruct (pow_lt_1_zero 0.85 ltac:(rewrite Rabs_pos_eq; lra)
                (eps / Rabs (zt - z)) ltac:(apply Rdiv_lt_0_compat; assumption))
      as [N HN].
    exists N. intros k Hk. rewrite zoom_iter_closed.
    replace (zt - 0.85 ^ k * (zt - z) - zt) with (- (0.85 ^ k * (zt - z))) by ring.
    rewrite Rabs_Ropp, Rabs_mult.
    specialize (HN k Hk).
    apply (Rmult_lt_compat_r (Rabs (zt - z))) in HN; [|exact Ha].
    unfold Rdiv in HN. rewrite Rmult_assoc, Rinv_l, Rmult_1_r in HN by lra.
    exact HN.
Qed.

(** C8: with a fixed target [zt], iterating [zoom_step] from [z < zt] gives
    a strictly increasing sequence below [zt]; from [z > zt] a strictly
    decreasing sequence above [zt]; in every case it converges to [zt]. *)
Theorem zoom_smoothing_monotone (z zt : R) :
  (z < zt -> forall k,
     zoom_iter k z zt < zoom_iter (S k) z zt /\ zoom_iter k z zt < zt) /\
  (zt < z -> forall k,
     zoom_iter (S k) z zt < zoom_iter k z zt /\ zt < zoom_iter k z zt) /\
  Un_cv (fun k => zoom_iter k z zt) zt.
Proof.
  split; [|split; [|apply zoom_iter_cv]].
  - intros Hz k. rewrite !zoom_iter_closed. cbn [pow].
    assert (Hp : 0 < 0.85 ^ k) by (apply pow_lt; lra).
    split; nra.
  - intros Hz k. rewrite !zoom_iter_closed. cbn [pow].
    assert (Hp : 0 < 0.85 ^ k) by (apply pow_lt; lra).
    split; nra.
Qed.

Lemma zoom_smoothing_monotone_witness :
  zoom_iter 0 1 80 < zoom_iter 1 1 80 /\ zoom_iter 0 1 80 < 80.
Proof.
  apply (proj1 (zoom_smoothing_monotone 1 80)). lra.
Defined.

(** ** Time-step bounds *)

Lemma clip_range a : 0 <= clip a 0 slider_w <= slider_w.
Proof.
  unfold clip, slider_w. split.
  - apply Rmin_glb; [apply Rmax_r|lra].
  - apply Rmin_r.
Qed.

Lemma slider_value_range vmin vmax mx :
  vmin <= vmax -> vmin <= slider_value vmin vmax mx <= vmax.
Proof.
  intro H. unfold slider_value.
  pose proof (clip_range (mx - slider_x)) as [H0 H1].
  set (c := clip (mx - slider_x) 0 slider_w) in *.
  assert (Hq : 0 <= c / slider_w <= 1).
  { unfold slider_w in *. split; [apply Rmult_le_pos; lra|].
    apply (Rmult_le_reg_r 200); [lra|]. unfold Rdiv.
    rewrite Rmult_assoc, Rinv_l, Rmult_1_r; lra. }
  split; nra.
Qed.

Lemma dt_step_range d t : dt_in_range d -> dt_in_range t -> dt_in_range (dt_step d t).
Proof. unfold dt_in_range, dt_step. lra. Qed.

Lemma frame_dt_range solve hzo w ev w' :
  dt_in_range (dt w) -> dt_in_range (dt_target w) ->
  frame solve hzo w ev = Ret w' -> dt_in_range (dt w') /\ dt_in_range (dt_target w').
Proof.
  intros Hd Ht Hf. rewrite frame_eq in Hf. cbv zeta in Hf.
  destruct (hz_frame hzo _); [|discriminate]. injection Hf as <-. cbn [dt dt_target].
  assert (Htt : dt_in_range (match ev_dt_drag ev with
                             | Some mx => slider_value dt_min dt_max mx
                             | None => dt_target w end)).
  { destruct (ev_dt_drag ev) as [mx|]; [|exact Ht].
    apply slider_value_range. unfold dt_min, dt_max. lra. }
  split; [apply dt_step_range|]; assumption.
Qed.

Lemma run_frames_dt_range solve hzo evs w w' :
  dt_in_range (dt w) -> dt_in_range (dt_target w) ->
  run_frames solve hzo w evs = Ret w' -> dt_in_range (dt w') /\ dt_in_range (dt_target w').
Proof.
  revert w. induction evs as [|ev evs IH]; intros w Hd Ht Hr; cbn [run_frames] in Hr.
  - injection Hr as <-. split; assumption.
  - destruct (frame solve hzo w ev) as [w1|e] eqn:Hf; [|discriminate].
    cbn [bind] in Hr. destruct (frame_dt_range _ _ _ _ _ Hd Ht Hf).
    apply (IH w1); assumption.
Qed.

Lemma clamp_dt_range d : dt_in_range (clamp_dt d).
Proof.
  unfold dt_in_range, clamp_dt, dt_min, dt_max.
  destruct (Rlt_dec _ d); [lra|]. destruct (Rlt_dec d _); lra.
Qed.

(** C9: an initial [dt] outside [[3600, 604800]] is clamped into it
    ([dt = 10] starts at [3600]); one smoothing step with current value and
    target in range stays in range; and after any sequence of frames of
    [play_orbit] (slider targets included), [dt] and its target are in
    range. *)
Theorem dt_bounds (d0 : R) :
  (d0 < dt_min -> clamp_dt d0 = dt_min) /\
  (dt_max < d0 -> clamp_dt d0 = dt_max) /\
  dt_in_range (clamp_dt d0) /\
  clamp_dt 10 = 3600 /\
  (forall d t, dt_in_range d -> dt_in_range t -> dt_in_range (dt_step d t)) /\
  (forall solve hzo pl st0 evs w,
     play_orbit solve hzo pl st0 d0 evs = Ret w ->
     dt_in_range (dt w) /\ dt_in_range (dt_target w)).
Proof.
  assert (Hmm : dt_min < dt_max) by (unfold dt_min, dt_max; lra).
  split; [|split; [|split; [|split; [|split]]]].
  - intro H. unfold clamp_dt. destruct (Rlt_dec dt_max d0); [lra|].
    destruct (Rlt_dec d0 dt_min); [reflexivity|lra].
  - intro H. unfold clamp_dt. destruct (Rlt_dec dt_max d0); [reflexivity|lra].
  - apply clamp_dt_range.
  - unfold clamp_dt, dt_min, dt_max.
    destruct (Rlt_dec _ 10); [lra|]. destruct (Rlt_dec 10 3600); [reflexivity|lra].
  - apply dt_step_range.
  - intros solve hzo pl st0 evs w H. unfold play_orbit in H.
    destruct (hz_setup hzo) as [u|e]; [|discriminate]. cbn [bind] in H.
    refine (run_frames_dt_range _ _ _ _ _ _ _ H); apply clamp_dt_range.
Qed.

Lemma dt_bounds_witness : clamp_dt 10 = dt_min.
Proof.
  apply (proj1 (dt_bounds 10)). unfold dt_min. lra.
Defined.

(** ** Screen transform *)

Lemma trunc_close r : Rabs (IZR (trunc r) - r) < 1.
Proof.
  unfold trunc. destruct (Rle_dec 0 r) as [H|H].
  - destruct (base_Int_part r) as [H1 H2]. apply Rabs_def1; lra.
  - destruct (base_Int_part (- r)) as [H1 H2]. rewrite opp_IZR.
    apply Rabs_def1; lra.
Qed.

Lemma trunc_nonneg r z : 0 <= r -> IZR z <= r < IZR z + 1 -> trunc r = z.
Proof.
  intros H [H1 H2]. unfold trunc. destruct (Rle_dec 0 r) as [_|N]; [|lra].
  unfold Int_part. rewrite <- (up_tech r z H1); [ring|].
  rewrite plus_IZR. exact H2.
Qed.

Lemma from_screen_error (s : Z) (w c zoom half : R) :
  0 < zoom ->
  Rabs (IZR s - ((w - c) * SCALE * zoom + half)) < 1 ->
  Rabs ((IZR s - half) / (SCALE * zoom) + c - w) < 1 / (SCALE * zoom).
Proof.
  intros Hz Hs.
  assert (Hk : 0 < SCALE * zoom) by (unfold SCALE; nra).
  replace ((IZR s - half) / (SCALE * zoom) + c - w)
    with ((IZR s - ((w - c) * SCALE * zoom + half)) / (SCALE * zoom))
    by (field; unfold SCALE in *; repeat split; nra).
  unfold Rdiv. rewrite Rabs_mult, (Rabs_pos_eq (/ _)) by (apply Rlt_le, Rinv_0_lt_compat; exact Hk).
  apply Rmult_lt_compat_r; [apply Rinv_0_lt_compat; exact Hk|exact Hs].
Qed.

(** C10 (counterexample): a planet at [1e9] m on the x axis, camera at the
    origin, zoom 1: the exact screen abscissa is [600.2] but the code draws
    it at pixel [600], and mapping that pixel back gives [0] m, an error of
    [1e9] m. *)
Lemma to_screen_truncates :
  to_screen (1e9, 0) (0, 0) 1 = (600%Z, 450%Z) /\
  IZR (fst (to_screen (1e9, 0) (0, 0) 1)) <> (1e9 - 0) * SCALE * 1 + WIDTH / 2 /\
  fst (from_screen (to_screen (1e9, 0) (0, 0) 1) (0, 0) 1) - 1e9 = - 1e9.
Proof.
  assert (E : to_screen (1e9, 0) (0, 0) 1 = (600%Z, 450%Z)).
  { unfold to_screen. cbn [fst snd]. f_equal; apply trunc_nonneg;
      unfold SCALE, WIDTH, HEIGHT; try split; lra. }
  rewrite E. split; [reflexivity|]. split.
  - cbn [fst]. unfold SCALE, WIDTH. lra.
  - unfold from_screen. cbn [fst]. unfold WIDTH. field_simplify; unfold SCALE; lra.
Qed.

(** C10 (amended): the screen coordinates are the truncations toward zero
    of [(world - center) SCALE zoom + (WIDTH/2, HEIGHT/2)], within one pixel
    of it; for [zoom > 0] the inverse mapping of the produced pixel recovers
    the world coordinate only to within [1 / (SCALE zoom)] metres per axis. *)
Theorem to_screen_roundtrip (world center : R * R) (zoom : R) :
  0 < zoom ->
  let s := to_screen world center zoom in
  let ex := (fst world - fst center) * SCALE * zoom + WIDTH / 2 in
  let ey := (snd world - snd center) * SCALE * zoom + HEIGHT / 2 in
  fst s = trunc ex /\ snd s = trunc ey /\
  Rabs (IZR (fst s) - ex) < 1 /\ Rabs (IZR (snd s) - ey) < 1 /\
  Rabs (fst (from_screen s center zoom) - fst world) < 1 / (SCALE * zoom) /\
  Rabs (snd (from_screen s center zoom) - snd world) < 1 / (SCALE * zoom).
Proof.
  intros Hz s ex ey.
  assert (Hx : Rabs (IZR (fst s) - ex) < 1) by apply trunc_close.
  assert (Hy : Rabs (IZR (snd s) - ey) < 1) by apply trunc_close.
  split; [reflexivity|]. split; [reflexivity|].
  split; [exact Hx|]. split; [exact Hy|]. split.
  - apply from_screen_error; assumption.
  - apply from_screen_error; assumption.
Qed.

Lemma to_screen_roundtrip_witness :
  Rabs (fst (from_screen (to_screen (1e9, 0) (0, 0) 1) (0, 0) 1) - 1e9)
    < 1 / (SCALE * 1).
Proof.
  exact (proj1 (proj2 (proj2 (proj2 (proj2
    (to_screen_roundtrip (1e9, 0) (0, 0) 1 ltac:(lra))))))).
Defined.

(** * Further properties of the code *)

(** ** [barycentre] and [distance] *)

Lemma hypot_scale k a b : hypot (k * a) (k * b) = Rabs k * hypot a b.
Proof.
  unfold hypot.
  replace ((k * a) ^ 2 + (k * b) ^ 2) with (Rsqr k * (a ^ 2 + b ^ 2))
    by (unfold Rsqr; ring).
  rewrite sqrt_mult by (try apply Rle_0_sqr; nra).
  rewrite sqrt_Rsqr_abs. reflexivity.
Qed.

Lemma hypot_neg a b : hypot (- a) (- b) = hypot a b.
Proof. unfold hypot. f_equal. ring. Qed.

Lemma hypot_triangle a b c d : hypot (a + c) (b + d) <= hypot a b + hypot c d.
Proof.
  pose proof (hypot_nonneg a b) as HA. pose proof (hypot_nonneg c d) as HB.
  pose proof (hypot_sq a b) as SA. pose proof (hypot_sq c d) as SB.
  pose proof (hypot_sq (a + c) (b + d)) as SC.
  apply Rsqr_incr_0_var; [|lra]. unfold Rsqr. rewrite SC.
  assert (L : a * c + b * d <= hypot a b * hypot c d).
  { assert (0 <= (a * d - b * c) ^ 2) by apply pow2_ge_0.
    destruct (Rle_dec (a * c + b * d) 0) as [N|P]; [nra|].
    apply Rsqr_incr_0_var; [|nra]. unfold Rsqr.
    replace (hypot a b * hypot c d * (hypot a b * hypot c d))
      with ((hypot a b * hypot a b) * (hypot c d * hypot c d)) by ring.
    rewrite SA, SB. nra. }
  nra.
Qed.

(** X1: [barycentre] fails ([ZeroDivisionError]) exactly when the two
    masses sum to zero; otherwise it does not depend on the order of its
    arguments, and translating both positions translates it. *)
Theorem barycentre_edge_symmetry (p1 p2 : body) (a b : R) :
  (barycentre p1 p2 = None <-> mass p1 + mass p2 = 0) /\
  barycentre p1 p2 = barycentre p2 p1 /\
  barycentre (mkBody (mass p1) (fst (position p1) + a, snd (position p1) + b)
                (speed p1) (trail p1))
             (mkBody (mass p2) (fst (position p2) + a, snd (position p2) + b)
                (speed p2) (trail p2))
  = option_map (fun '(x, y) => (x + a, y + b)) (barycentre p1 p2).
Proof.
  destruct p1 as [m1 [x1 y1] s1 t1], p2 as [m2 [x2 y2] s2 t2].
  unfold barycentre; cbn [mass position fst snd].
  split; [|split].
  - destruct (Req_EM_T (m1 + m2) 0); split; intro H; try discriminate; easy.
  - rewrite (Rplus_comm m2 m1).
    destruct (Req_EM_T (m1 + m2) 0); [reflexivity|].
    f_equal. f_equal; f_equal; ring.
  - destruct (Req_EM_T (m1 + m2) 0) as [|N]; [reflexivity|].
    cbn [option_map]. f_equal. f_equal; field; exact N.
Qed.

(** X2: for positive masses the barycentre lies on the segment between the
    two bodies ([d(p1,B) + d(B,p2) = d(p1,p2)]) and obeys the lever rule
    [m1 d(B,p1) = m2 d(B,p2)]. *)
Theorem barycentre_on_segment (p1 p2 : body) :
  0 < mass p1 -> 0 < mass p2 ->
  exists B, barycentre p1 p2 = Some B /\
    distance p1 (point B) + distance (point B) p2 = distance p1 p2 /\
    mass p1 * distance (point B) p1 = mass p2 * distance (point B) p2.
Proof.
  destruct p1 as [m1 [x1 y1] s1 t1], p2 as [m2 [x2 y2] s2 t2].
  cbn [mass]. intros H1 H2.
  assert (Hs : m1 + m2 <> 0) by lra.
  unfold barycentre. cbn [mass position].
  destruct (Req_EM_T (m1 + m2) 0) as [E|_]; [contradiction|].
  eexists. split; [reflexivity|].
  unfold distance, point; cbn [position fst snd].
  set (D := hypot (x1 - x2) (y1 - y2)).
  set (k1 := m1 / (m1 + m2)). set (k2 := m2 / (m1 + m2)).
  assert (K1 : 0 < k1) by (unfold k1; apply Rdiv_lt_0_compat; lra).
  assert (K2 : 0 < k2) by (unfold k2; apply Rdiv_lt_0_compat; lra).
  assert (E1 : hypot (x1 - (m1 * x1 + m2 * x2) / (m1 + m2))
                     (y1 - (m1 * y1 + m2 * y2) / (m1 + m2)) = k2 * D).
  { unfold D, k2. rewrite <- (Rabs_pos_eq (m2 / (m1 + m2))) by (apply Rlt_le; exact K2).
    rewrite <- hypot_scale. f_equal; field; exact Hs. }
  assert (E2 : hypot ((m1 * x1 + m2 * x2) / (m1 + m2) - x2)
                     ((m1 * y1 + m2 * y2) / (m1 + m2) - y2) = k1 * D).
  { unfold D, k1. rewrite <- (Rabs_pos_eq (m1 / (m1 + m2))) by (apply Rlt_le; exact K1).
    rewrite <- hypot_scale. f_equal; field; exact Hs. }
  assert (E3 : hypot ((m1 * x1 + m2 * x2) / (m1 + m2) - x1)
                     ((m1 * y1 + m2 * y2) / (m1 + m2) - y1) = k2 * D).
  { rewrite <- E1, <- hypot_neg. f_equal; ring. }
  rewrite E1, E2, E3. split.
  - unfold k1, k2. field. exact Hs.
  - unfold k1, k2. field. exact Hs.
Qed.

(** X3: [distance] is a metric on positions: symmetric, zero exactly
    between bodies at the same position, and obeying the triangle
    inequality. *)
Theorem distance_metric (p1 p2 p3 : body) :
  distance p1 p2 = distance p2 p1 /\
  (distance p1 p2 = 0 <-> position p1 = position p2) /\
  distance p1 p3 <= distance p1 p2 + distance p2 p3.
Proof.
  destruct p1 as [m1 [x1 y1] s1 t1], p2 as [m2 [x2 y2] s2 t2],
           p3 as [m3 [x3 y3] s3 t3].
  unfold distance; cbn [position fst snd]. split; [|split].
  - rewrite <- hypot_neg. f_equal; ring.
  - split.
    + intro H. apply hypot_zero in H as [Hx Hy]. f_equal; lra.
    + intro H. injection H as -> ->. unfold hypot.
      replace ((x2 - x2) ^ 2 + (y2 - y2) ^ 2) with 0 by ring. apply sqrt_0.
  - replace (x1 - x3) with ((x1 - x2) + (x2 - x3)) by ring.
    replace (y1 - y3) with ((y1 - y2) + (y2 - y3)) by ring.
    apply hypot_triangle.
Qed.

Lemma barycentre_on_segment_witness :
  exists B, barycentre sun (earth_at 1 0) = Some B /\
    distance sun (point B) + distance (point B) (earth_at 1 0)
      = distance sun (earth_at 1 0).
Proof.
  destruct (barycentre_on_segment sun (earth_at 1 0)) as [B [HB [Hd _]]];
    [unfold sun; simpl; lra|unfold earth_at; simpl; lra|].
  exists B. split; assumption.
Defined.

(** ** [vitesse_orbitale] *)

Lemma vitesse_orbitale_value (planete etoile : body) (x0 y0 : R) :
  position planete = (x0, y0) -> 0 < sqrt (x0 ^ 2 + y0 ^ 2) ->
  0 < mass planete + mass etoile ->
  let r0 := sqrt (x0 ^ 2 + y0 ^ 2) in
  let v := sqrt (G * (mass etoile + mass planete) / r0) in
  vitesse_orbitale planete etoile = Ret (Some (- y0 / r0 * v), Some (x0 / r0 * v)).
Proof.
  intros Hp Hr Hm r0 v.
  assert (HG : 0 < G) by (unfold G; lra).
  assert (Hq : 0 <= G * (mass etoile + mass planete) / r0)
    by (apply Rlt_le, Rdiv_lt_0_compat; [nra|exact Hr]).
  unfold vitesse_orbitale. rewrite Hp. fold r0.
  unfold xdiv. destruct (Req_EM_T r0 0) as [E|_]; [unfold r0 in E; lra|].
  cbn [xsqrt]. destruct (Rlt_dec _ 0) as [L|_]; [lra|]. reflexivity.
Qed.

(** X4: for a planet away from the star with positive total mass, the
    initial velocity turns counter-clockwise with angular momentum per unit
    mass [x0 vy - y0 vx = r0 v > 0], and its centripetal acceleration
    [v^2 / r0] equals the gravitational one [G (M + m) / r0^2]. *)
Theorem vitesse_orbitale_counterclockwise (planete etoile : body) (x0 y0 : R) :
  position planete = (x0, y0) -> 0 < sqrt (x0 ^ 2 + y0 ^ 2) ->
  0 < mass planete + mass etoile ->
  let r0 := sqrt (x0 ^ 2 + y0 ^ 2) in
  exists vx vy v, vitesse_orbitale planete etoile = Ret (Some vx, Some vy) /\
    x0 * vy - y0 * vx = r0 * v /\ 0 < r0 * v /\
    v ^ 2 / r0 = G * (mass etoile + mass planete) / r0 ^ 2.
Proof.
  intros Hp Hr Hm r0.
  set (v := sqrt (G * (mass etoile + mass planete) / r0)).
  assert (HG : 0 < G) by (unfold G; lra).
  assert (Hq : 0 < G * (mass etoile + mass planete) / r0)
    by (apply Rdiv_lt_0_compat; [nra|exact Hr]).
  assert (Hsq : r0 * r0 = x0 ^ 2 + y0 ^ 2) by (apply sqrt_sqrt; nra).
  exists (- y0 / r0 * v), (x0 / r0 * v), v.
  split; [apply vitesse_orbitale_value; assumption|].
  assert (Hr0 : r0 <> 0) by (unfold r0; lra).
  split; [|split].
  - transitivity ((x0 ^ 2 + y0 ^ 2) / r0 * v); [field; exact Hr0|].
    rewrite <- Hsq. field. exact Hr0.
  - apply Rmult_lt_0_compat; [exact Hr|]. apply sqrt_lt_R0. exact Hq.
  - unfold v. rewrite <- Rsqr_pow2, Rsqr_sqrt by lra. field. exact Hr0.
Qed.

Lemma vitesse_orbitale_counterclockwise_witness :
  exists vx vy v, vitesse_orbitale (earth_at 1 0) sun = Ret (Some vx, Some vy) /\
    1 * vy - 0 * vx = sqrt (1 ^ 2 + 0 ^ 2) * v.
Proof.
  assert (Hr : 0 < sqrt (1 ^ 2 + 0 ^ 2)).
  { replace (1 ^ 2 + 0 ^ 2) with 1 by ring. rewrite sqrt_1. lra. }
  destruct (vitesse_orbitale_counterclockwise (earth_at 1 0) sun 1 0 eq_refl Hr)
    as [vx [vy [v [H1 [H2 _]]]]]; [unfold earth_at, sun; simpl; lra|].
  exists vx, vy, v. split; assumption.
Defined.

(** ** Pairwise forces of [equations_mouvement] *)

Lemma rsum_cons {A} (f : A -> R) a l : rsum f (a :: l) = f a + rsum f l.
Proof. reflexivity. Qed.

Lemma rsum_plus {A} (f g : A -> R) l :
  rsum (fun x => f x + g x) l = rsum f l + rsum g l.
Proof.
  induction l as [|a l IH]; [unfold rsum; cbn; ring|].
  rewrite !rsum_cons, IH. ring.
Qed.

Lemma rsum_scale {A} c (f : A -> R) l : c * rsum f l = rsum (fun x => c * f x) l.
Proof.
  induction l as [|a l IH]; [unfold rsum; cbn; ring|].
  rewrite !rsum_cons, <- IH. ring.
Qed.

Lemma rsum_opp {A} (f : A -> R) l : rsum (fun x => - f x) l = - rsum f l.
Proof.
  induction l as [|a l IH]; [unfold rsum; cbn; ring|].
  rewrite !rsum_cons, IH. ring.
Qed.

Lemma rsum_ext {A} (f g : A -> R) l :
  (forall x, In x l -> f x = g x) -> rsum f l = rsum g l.
Proof. intro H. unfold rsum. f_equal. apply map_ext_in. exact H. Qed.

Lemma rsum_zero {A} (l : list A) : rsum (fun _ => 0) l = 0.
Proof.
  induction l as [|a l IH]; [reflexivity|]. rewrite rsum_cons, IH. ring.
Qed.

Lemma rsum_swap {A B} (f : A -> B -> R) (l : list A) (k : list B) :
  rsum (fun i => rsum (fun j => f i j) k) l = rsum (fun j => rsum (fun i => f i j) l) k.
Proof.
  induction l as [|a l IH].
  - symmetry. apply rsum_zero.
  - rewrite rsum_cons, IH, <- rsum_plus. reflexivity.
Qed.

Lemma rsum_filter_neq (g : nat -> R) i l :
  g i = 0 -> rsum g (filter (fun j => negb (Nat.eqb i j)) l) = rsum g l.
Proof.
  intro H0. induction l as [|a l IH]; [reflexivity|].
  cbn [filter]. destruct (Nat.eqb i a) eqn:E; cbn [negb].
  - apply Nat.eqb_eq in E. subst a. rewrite rsum_cons, IH, H0. ring.
  - rewrite !rsum_cons, IH. reflexivity.
Qed.

(** A double sum of an antisymmetric function vanishes. *)
Lemma rsum_antisym (F : nat -> nat -> R) l :
  (forall i j, F j i = - F i j) ->
  rsum (fun i => rsum (fun j => F i j) l) l = 0.
Proof.
  intro HF.
  assert (E : rsum (fun i => rsum (fun j => F i j) l) l
              = - rsum (fun i => rsum (fun j => F i j) l) l).
  { rewrite rsum_swap at 1. rewrite <- rsum_opp.
    apply rsum_ext. intros j _. rewrite <- rsum_opp.
    apply rsum_ext. intros i _. apply HF. }
  lra.
Qed.

Lemma pair_term_x_antisym st pl i j :
  mass_of pl j * pair_term_x st pl j i = - (mass_of pl i * pair_term_x st pl i j).
Proof.
  unfold pair_term_x. cbv zeta.
  replace (hypot (at_ st (4 * j) - at_ st (4 * i)) (at_ st (4 * j + 1) - at_ st (4 * i + 1)))
    with (hypot (at_ st (4 * i) - at_ st (4 * j)) (at_ st (4 * i + 1) - at_ st (4 * j + 1)))
    by (rewrite <- hypot_neg; f_equal; ring).
  unfold Rdiv. ring.
Qed.

Lemma pair_term_y_antisym st pl i j :
  mass_of pl j * pair_term_y st pl j i = - (mass_of pl i * pair_term_y st pl i j).
Proof.
  unfold pair_term_y. cbv zeta.
  replace (hypot (at_ st (4 * j) - at_ st (4 * i)) (at_ st (4 * j + 1) - at_ st (4 * i + 1)))
    with (hypot (at_ st (4 * i) - at_ st (4 * j)) (at_ st (4 * i + 1) - at_ st (4 * j + 1)))
    by (rewrite <- hypot_neg; f_equal; ring).
  unfold Rdiv. ring.
Qed.

Lemma pair_sum_cancels (pt : nat -> nat -> R) (pl : list body) n :
  (forall i j, mass_of pl j * pt j i = - (mass_of pl i * pt i j)) ->
  rsum (fun i => mass_of pl i * rsum (pt i) (others n i)) (seq 0 n) = 0.
Proof.
  intro HA.
  rewrite (rsum_ext _ (fun i => rsum (fun j => mass_of pl i * pt i j) (seq 0 n))).
  - apply rsum_antisym. intros i j. apply HA.
  - intros i _. rewrite rsum_scale. unfold others. apply rsum_filter_neq.
    specialize (HA i i). lra.
Qed.

Lemma equations_mouvement_accel_slots t st pl etoile i :
  length st = (4 * length pl)%nat ->
  (i < length pl)%nat ->
  hypot (at_ st (4 * i)%nat) (at_ st (4 * i + 1)%nat) <> 0 ->
  equations_mouvement t st pl etoile =
    Ret (flat_map (block st pl (mass etoile)) (seq 0 (length pl))) /\
  nth (4 * i + 2) (flat_map (block st pl (mass etoile)) (seq 0 (length pl))) None
    = Some (fst (spec_accel st pl (mass etoile) i)) /\
  nth (4 * i + 3) (flat_map (block st pl (mass etoile)) (seq 0 (length pl))) None
    = Some (snd (spec_accel st pl (mass etoile) i)).
Proof.
  intros Hl Hi Hr. split; [apply equations_mouvement_ret; exact Hl|].
  rewrite <- (app_nil_r (flat_map _ _)).
  rewrite !nth_flat_map4; try apply block_length; try (rewrite length_seq; exact Hi); try lia.
  rewrite seq_nth by exact Hi. rewrite block_spec by exact Hr. split; reflexivity.
Qed.

(** X5: the planet-planet forces computed by [equations_mouvement] cancel
    in pairs: each planet's acceleration is its star term plus a pairwise
    part [P_i], and [sum_i m_i P_i = 0] on both axes, so the planets'
    mutual attraction leaves their total momentum unchanged. *)
Theorem equations_mouvement_pair_momentum (t : R) (st : list R)
    (pl : list body) (etoile : body) :
  length st = (4 * length pl)%nat ->
  (forall i, (i < length pl)%nat ->
     hypot (at_ st (4 * i)%nat) (at_ st (4 * i + 1)%nat) <> 0) ->
  let n := length pl in
  let Px i := rsum (pair_term_x st pl i) (others n i) in
  let Py i := rsum (pair_term_y st pl i) (others n i) in
  exists d, equations_mouvement t st pl etoile = Ret d /\
    (forall i, (i < n)%nat ->
       let xi := at_ st (4 * i)%nat in let yi := at_ st (4 * i + 1)%nat in
       nth (4 * i + 2) d None
         = Some (- G * mass etoile * xi / hypot xi yi ^ 3 + Px i) /\
       nth (4 * i + 3) d None
         = Some (- G * mass etoile * yi / hypot xi yi ^ 3 + Py i)) /\
    rsum (fun i => mass_of pl i * Px i) (seq 0 n) = 0 /\
    rsum (fun i => mass_of pl i * Py i) (seq 0 n) = 0.
Proof.
  intros Hl Hr n Px Py.
  exists (flat_map (block st pl (mass etoile)) (seq 0 (length pl))).
  split; [apply equations_mouvement_ret; exact Hl|]. split; [|split].
  - intros i Hi xi yi.
    destruct (equations_mouvement_accel_slots t st pl etoile i Hl Hi (Hr i Hi))
      as [_ [H2 H3]].
    rewrite H2, H3. split; reflexivity.
  - apply pair_sum_cancels. apply pair_term_x_antisym.
  - apply pair_sum_cancels. apply pair_term_y_antisym.
Qed.

Lemma equations_mouvement_pair_momentum_witness :
  exists d, equations_mouvement 0 [1; 0; 0; 3e4; 2; 0; 0; 2e4]
              [earth_at 1 0; earth_at 2 0] sun = Ret d.
Proof.
  destruct (equations_mouvement_pair_momentum 0 [1; 0; 0; 3e4; 2; 0; 0; 2e4]
              [earth_at 1 0; earth_at 2 0] sun) as [d [Hd _]].
  - reflexivity.
  - intros k Hk. destruct k as [|[|k]]; [exact hypot_1_0| |simpl in Hk; lia].
    unfold hypot, at_. cbn [nth Nat.mul Nat.add].
    replace (2 ^ 2 + 0 ^ 2) with 4 by ring. intro E.
    apply sqrt_eq_0 in E; lra.
  - exists d. exact Hd.
Defined.

(** ** The initial state vector *)

Lemma state_of_length pl : length (state_of pl) = (4 * length pl)%nat.
Proof.
  induction pl as [|p pl IH]; [reflexivity|].
  unfold state_of in *. cbn [flat_map]. rewrite length_app, IH. cbn [length]. lia.
Qed.

Lemma write_back_state_of pl pre k :
  length pre = (4 * k)%nat -> write_back (pre ++ state_of pl) k pl = pl.
Proof.
  revert pre k. induction pl as [|p pl IH]; intros pre k Hpre; [reflexivity|].
  destruct p as [m [x y] [vx vy] t].
  unfold state_of. cbn [flat_map write_back]. fold (state_of pl).
  assert (N : forall j l, at_ (pre ++ l) (4 * k + j) = nth j l 0).
  { intros j l. unfold at_. rewrite app_nth2 by lia. f_equal. lia. }
  cbv zeta. rewrite <- (Nat.add_0_r (4 * k)) at 1. rewrite !N. cbn [nth app fst snd].
  cbn [mass trail]. f_equal.
  cbn [position speed fst snd]. replace (pre ++ x :: y :: vx :: vy :: state_of pl) with ((pre ++ [x; y; vx; vy]) ++ state_of pl) by (rewrite <- app_assoc; reflexivity). apply IH. rewrite length_app, Hpre. cbn [length]. lia.
Qed.

(** X6: the state vector built at setup from the planets' positions and
    speeds has length [4n], [equations_mouvement] accepts it (no shape
    error), and writing it back into the planets, as each frame does with
    the solver's result, gives back the planets unchanged. *)
Theorem state_of_roundtrip (t : R) (pl : list body) (etoile : body) :
  length (state_of pl) = (4 * length pl)%nat /\
  (exists d, equations_mouvement t (state_of pl) pl etoile = Ret d) /\
  write_back (state_of pl) 0 pl = pl.
Proof.
  split; [apply state_of_length|]. split.
  - eexists. apply equations_mouvement_ret. apply state_of_length.
  - apply (write_back_state_of pl []). reflexivity.
Qed.

(** ** Buttons *)

Lemma check_button_click_from {A} (ts : list A) (i x y : Z) :
  (0 <= i)%Z ->
  check_button_click (draw_buttons_from i ts) x y =
  if ((50 <=? x)%Z && (x <? 150)%Z && (120 + 30 * i <=? y)%Z
     && ((y - 120) mod 30 <? 25)%Z)%bool
  then nth_error ts (Z.to_nat ((y - 120) / 30 - i))
  else None.
Proof.
  revert i. induction ts as [|p ts IH]; intros i Hi.
  - cbn [draw_buttons_from check_button_click].
    destruct (_ && _ && _ && _)%bool; [|reflexivity].
    destruct (Z.to_nat _); reflexivity.
  - cbn [draw_buttons_from check_button_click]. rewrite IH by lia.
    unfold collidepoint; cbn [left top width height].
    destruct (Z.leb_spec 50 x); destruct (Z.ltb_spec x (50 + 100));
      destruct (Z.ltb_spec x 150); cbn [andb]; try (exfalso; lia); try reflexivity.
    destruct (Z.leb_spec (120 + i * (25 + 5)) y);
      destruct (Z.ltb_spec y (120 + i * (25 + 5) + 25));
      destruct (Z.leb_spec (120 + 30 * (i + 1)) y);
      destruct (Z.leb_spec (120 + 30 * i) y);
      destruct (Z.ltb_spec ((y - 120) mod 30) 25);
      cbn [andb]; try (exfalso; lia); try reflexivity;
      Z.div_mod_to_equations; try (exfalso; lia).
    + replace (Z.to_nat (q - i)) with 0%nat by lia. reflexivity.
    + replace (Z.to_nat (q - i)) with (S (Z.to_nat (q - (i + 1)))) by lia.
      reflexivity.
Qed.

(** X7: [check_button_click] on the buttons of [draw_buttons] selects the
    target whose button row contains the click: a click with
    [50 <= x < 150] and [y] in the 25-pixel band of row [i]
    ([120 + 30 i <= y < 145 + 30 i]) selects target [i]; a click left or
    right of the column, above the first row, in a 5-pixel gap or below the
    last row selects nothing. *)
Theorem check_button_click_layout {A} (ts : list A) (x y : Z) :
  check_button_click (draw_buttons ts) x y =
  if ((50 <=? x)%Z && (x <? 150)%Z && (120 <=? y)%Z && ((y - 120) mod 30 <? 25)%Z)%bool
  then nth_error ts (Z.to_nat ((y - 120) / 30))
  else None.
Proof.
  unfold draw_buttons. rewrite check_button_click_from by lia.
  rewrite Z.mul_0_r, Z.add_0_r, Z.sub_0_r. reflexivity.
Qed.

(** ** Zoom bounds over a run *)

Lemma zoom_step_range z t :
  zoom_in_range z -> zoom_in_range t -> zoom_in_range (zoom_step z t).
Proof. unfold zoom_in_range, zoom_step. lra. Qed.

Lemma frame_zoom_range solve hzo w ev w' :
  zoom_in_range (zoom w) -> zoom_in_range (zoom_target w) ->
  frame solve hzo w ev = Ret w' ->
  zoom_in_range (zoom w') /\ zoom_in_range (zoom_target w').
Proof.
  intros Hz Ht Hf. rewrite frame_eq in Hf. cbv zeta in Hf.
  destruct (hz_frame hzo _); [|discriminate]. injection Hf as <-.
  cbn [zoom zoom_target].
  assert (Htt : zoom_in_range (match ev_zoom_drag ev with
                               | Some mx => slider_value zoom_min zoom_max mx
                               | None => zoom_target w end)).
  { destruct (ev_zoom_drag ev) as [mx|]; [|exact Ht].
    apply slider_value_range. unfold zoom_min, zoom_max. lra. }
  split; [apply zoom_step_range|]; assumption.
Qed.

Lemma run_frames_zoom_range solve hzo evs w w' :
  zoom_in_range (zoom w) -> zoom_in_range (zoom_target w) ->
  run_frames solve hzo w evs = Ret w' ->
  zoom_in_range (zoom w') /\ zoom_in_range (zoom_target w').
Proof.
  revert w. induction evs as [|ev evs IH]; intros w Hz Ht Hr; cbn [run_frames] in Hr.
  - injection Hr as <-. split; assumption.
  - destruct (frame solve hzo w ev) as [w1|e] eqn:Hf; [|discriminate].
    cbn [bind] in Hr. destruct (frame_zoom_range _ _ _ _ _ Hz Ht Hf).
    apply (IH w1); assumption.
Qed.

(** X8: in every state [play_orbit] reaches, the zoom and its target lie
    within the zoom slider's bounds [[0.5, 80]]: both start at [1.0], a
    drag sets the target to a value of the slider's range, and each frame
    moves the zoom by 15% of the way to its target. *)
Theorem play_orbit_zoom_range solve hzo pl st0 d0 evs w :
  play_orbit solve hzo pl st0 d0 evs = Ret w ->
  zoom_in_range (zoom w) /\ zoom_in_range (zoom_target w).
Proof.
  intro H. unfold play_orbit in H.
  destruct (hz_setup hzo) as [u|e]; [|discriminate]. cbn [bind] in H.
  refine (run_frames_zoom_range _ _ _ _ _ _ _ H);
    cbn [zoom zoom_target]; unfold zoom_in_range, zoom_min, zoom_max; lra.
Qed.

Lemma play_orbit_zoom_range_witness :
  exists w,
    play_orbit solve_id None [earth_at 1 0] [1; 0; 0; 3e4] 86400
      [mkEvents (Some 1000) None; no_events] = Ret w /\
    zoom_in_range (zoom w) /\ zoom_in_range (zoom_target w).
Proof.
  eexists. split; [reflexivity|].
  apply (play_orbit_zoom_range solve_id None [earth_at 1 0] [1; 0; 0; 3e4] 86400
           [mkEvents (Some 1000) None; no_events]).
  reflexivity.
Defined.

(** ** Slider handles *)

Lemma clip_inside a : 0 <= a <= slider_w -> clip a 0 slider_w = a.
Proof.
  intro H. unfold clip. rewrite Rmax_left by lra. apply Rmin_left. lra.
Qed.

(** X9: the slider handle and the drag read-out are inverse to each other:
    for [vmin < vmax], dragging to any [mx] on the track [[50, 250]] sets a
    target whose handle is drawn at [mx]; a target of [[vmin, vmax]] has its
    handle on the track, and dragging to that handle gives the target
    back. *)
Theorem slider_handle_roundtrip (vmin vmax mx t : R) :
  vmin < vmax ->
  (slider_x <= mx <= slider_x + slider_w ->
   handle_x vmin vmax (slider_value vmin vmax mx) = mx) /\
  (vmin <= t <= vmax ->
   slider_x <= handle_x vmin vmax t <= slider_x + slider_w /\
   slider_value vmin vmax (handle_x vmin vmax t) = t).
Proof.
  intro Hv. unfold handle_x, slider_value. split.
  - intro Hm. rewrite clip_inside by lra.
    unfold slider_x, slider_w in *. field. lra.
  - intro Ht.
    assert (Hq : 0 <= (t - vmin) / (vmax - vmin) <= 1).
    { split.
      - apply Rmult_le_pos; [lra|]. apply Rlt_le, Rinv_0_lt_compat. lra.
      - apply (Rmult_le_reg_r (vmax - vmin)); [lra|]. unfold Rdiv.
        rewrite Rmult_assoc, Rinv_l, Rmult_1_r by lra. lra. }
    unfold slider_x, slider_w in *. split; [lra|].
    replace (50 + (t - vmin) / (vmax - vmin) * 200 - 50)
      with ((t - vmin) / (vmax - vmin) * 200) by ring.
    rewrite clip_inside by (unfold slider_w; lra).
    field. lra.
Qed.

Lemma slider_handle_roundtrip_witness :
  handle_x zoom_min zoom_max (slider_value zoom_min zoom_max 100) = 100 /\
  slider_value dt_min dt_max (handle_x dt_min dt_max 86400) = 86400.
Proof.
  split.
  - apply (slider_handle_roundtrip zoom_min zoom_max 100 1);
      unfold zoom_min, zoom_max, slider_x, slider_w; lra.
  - apply (slider_handle_roundtrip dt_min dt_max 100 86400);
      unfold dt_min, dt_max; lra.
Defined.

(** ** Composition of frames *)


(** ** The planets after a frame *)

Definition no_body : body := mkBody 0 (0, 0) (0, 0) [].

Lemma write_back_length st k pl : length (write_back st k pl) = length pl.
Proof.
  revert k. induction pl as [|p pl IH]; intro k; cbn [write_back length]; [|rewrite IH]; reflexivity.
Qed.

Lemma write_back_nth st k pl i :
  (i < length pl)%nat ->
  nth i (write_back st k pl) no_body =
  mkBody (mass (nth i pl no_body))
    (at_ st (4 * (k + i)), at_ st (4 * (k + i) + 1))
    (at_ st (4 * (k + i) + 2), at_ st (4 * (k + i) + 3))
    (trail (nth i pl no_body)).
Proof.
  revert k i. induction pl as [|p pl IH]; intros k i Hi; cbn [length] in Hi; [lia|].
  destruct i as [|i]; cbn [write_back nth].
  - rewrite Nat.add_0_r. reflexivity.
  - rewrite IH by lia. replace (S k + i)%nat with (k + S i)%nat by lia. reflexivity.
Qed.

Lemma trail_push_last t xy d : last (trail_push t xy) d = xy.
Proof.
  unfold trail_push. destruct t as [|a t].
  - reflexivity.
  - destruct (Nat.ltb 400 _); cbn [app tl].
    + apply last_last.
    + change (a :: t ++ [xy]) with ((a :: t) ++ [xy]). apply last_last.
Qed.



(** ** The camera *)

(** X12: whatever the camera follows (the origin, the star or a planet) is
    drawn at the centre [(600, 450)] of the 1200x900 window, at every zoom
    level. *)
Theorem camera_target_centered (pl : list body) (etoile : body)
    (t : option target) (z : R) :
  to_screen (camera_center pl etoile t) (camera_center pl etoile t) z = (600%Z, 450%Z).
Proof.
  unfold to_screen. unfold WIDTH, HEIGHT.
  rewrite !Rminus_diag, !Rmult_0_l, !Rplus_0_l.
  f_equal; apply trunc_nonneg; lra.
Qed.

(** ** [src/seance4/fonctions_seance1.py] *)

Lemma stefan_law_eq T Rad : stefan_law T Rad = (4 * PI * sigma) * (Rad ^ 2 * T ^ 4).
Proof. unfold stefan_law. ring. Qed.

Lemma sq_pos_nonzero x : x <> 0 -> 0 < x ^ 2.
Proof.
  intro H. replace (x ^ 2) with (Rsqr x) by (unfold Rsqr; ring).
  apply Rsqr_pos_lt. exact H.
Qed.

Lemma stefan_coeff_pos : 0 < 4 * PI * sigma.
Proof. pose proof PI_RGT_0. unfold sigma. nra. Qed.

(** X13: [stefan_law] scales as the fourth power of the temperature and as
    the square of the radius: [L(k T, l R) = k^4 l^2 L(T, R)], whatever the
    signs; it is never negative. *)
Theorem stefan_law_scaling (T Rad k l : R) :
  stefan_law (k * T) (l * Rad) = k ^ 4 * l ^ 2 * stefan_law T Rad /\
  0 <= stefan_law T Rad.
Proof.
  split.
  - unfold stefan_law. ring.
  - rewrite stefan_law_eq. pose proof stefan_coeff_pos.
    apply Rmult_le_pos; [lra|].
    replace (Rad ^ 2 * T ^ 4) with ((Rad * T ^ 2) ^ 2) by ring. apply pow2_ge_0.
Qed.

(** X14: for a nonzero radius, [stefan_law] is positive at every nonzero
    temperature and strictly increasing in the temperature on [T >= 0]. *)
Theorem stefan_law_increasing (T1 T2 Rad : R) :
  Rad <> 0 ->
  (T1 <> 0 -> 0 < stefan_law T1 Rad) /\
  (0 <= T1 < T2 -> stefan_law T1 Rad < stefan_law T2 Rad).
Proof.
  intro HR. rewrite !stefan_law_eq. pose proof stefan_coeff_pos as Hc.
  assert (HR2 : 0 < Rad ^ 2) by (apply sq_pos_nonzero; exact HR).
  split.
  - intro HT. apply Rmult_lt_0_compat; [exact Hc|].
    apply Rmult_lt_0_compat; [exact HR2|].
    replace (T1 ^ 4) with ((T1 ^ 2) ^ 2) by ring. apply sq_pos_nonzero.
    apply pow_nonzero. exact HT.
  - intros HT. apply Rmult_lt_compat_l; [exact Hc|].
    apply Rmult_lt_compat_l; [exact HR2|].
    assert (A : T1 ^ 2 < T2 ^ 2) by nra.
    assert (B : 0 <= T1 ^ 2) by apply pow2_ge_0.
    replace (T1 ^ 4) with ((T1 ^ 2) ^ 2) by ring.
    replace (T2 ^ 4) with ((T2 ^ 2) ^ 2) by ring. nra.
Qed.

Lemma stefan_law_increasing_witness :
  0 < stefan_law 5778 6.957e8 /\ stefan_law 5000 6.957e8 < stefan_law 5778 6.957e8.
Proof.
  split.
  - apply (stefan_law_increasing 5778 5778 6.957e8); lra.
  - apply (stefan_law_increasing 5000 5778 6.957e8); lra.
Defined.

(** X15: [wien_law] is Wien's displacement law [lambda_max = b / T]:
    [wien_law T * T = b] for every nonzero [T]; on [T > 0] it is positive
    and strictly decreasing; for the Sun's [T = 5778 K] the peak lies
    between 501 and 502 nm. *)
Theorem wien_law_props (T1 T2 : R) :
  (T1 <> 0 -> wien_law T1 * T1 = b_wien) /\
  (0 < T1 -> 0 < wien_law T1) /\
  (0 < T1 < T2 -> wien_law T2 < wien_law T1) /\
  5.01e-7 < wien_law 5778 < 5.02e-7.
Proof.
  unfold wien_law, b_wien. split; [|split; [|split]].
  - intro H. field. exact H.
  - intro H. apply Rdiv_lt_0_compat; lra.
  - intro H. unfold Rdiv. apply Rmult_lt_compat_l; [lra|].
    apply Rinv_lt_contravar; nra.
  - split; apply (Rmult_lt_reg_r 5778); try lra;
      unfold Rdiv; rewrite Rmult_assoc, Rinv_l by lra; lra.
Qed.

Lemma wien_law_props_witness :
  wien_law 5778 * 5778 = b_wien /\ wien_law 10000 < wien_law 5778.
Proof.
  split.
  - apply (wien_law_props 5778 5778). lra.
  - apply (wien_law_props 5778 10000). lra.
Defined.

Lemma planck_denominator_pos lam T :
  0 < lam -> 0 < T ->
  0 < lam ^ 5 * (exp ((h_planck * c_light) / (lam * k_B * T)) - 1).
Proof.
  intros Hl HT. apply Rmult_lt_0_compat; [apply pow_lt; exact Hl|].
  assert (Hx : 0 < (h_planck * c_light) / (lam * k_B * T)).
  { unfold h_planck, c_light, k_B. apply Rdiv_lt_0_compat; [lra|].
    apply Rmult_lt_0_compat; [|exact HT]. apply Rmult_lt_0_compat; lra. }
  pose proof (exp_increasing 0 _ Hx) as He. rewrite exp_0 in He. lra.
Qed.



(** ** Trail lengths over a run *)

Lemma trail_push_length t xy :
  (length t <= 400)%nat -> length (trail_push t xy) = Nat.min (S (length t)) 400.
Proof.
  intro H. unfold trail_push. rewrite length_app. cbn [length].
  destruct (Nat.ltb_spec 400 (length t + 1)).
  - destruct t as [|a t]; cbn [length] in *; [lia|].
    cbn [app tl]. rewrite length_app. cbn [length]. lia.
  - rewrite length_app. cbn [length]. lia.
Qed.

(** The trails all hold [min(n, 400)] points. *)
Definition trails_of_length (n : nat) (pl : list body) : Prop :=
  Forall (fun p => length (trail p) = Nat.min n 400) pl.

Lemma frame_trail_lengths solve hzo w ev w' n :
  trails_of_length n (planetes w) -> frame solve hzo w ev = Ret w' ->
  trails_of_length (S n) (planetes w').
Proof.
  intros Hb Hf. rewrite frame_eq in Hf. cbv zeta in Hf.
  destruct (hz_frame hzo _); [|discriminate].
  injection Hf as <-. unfold trails_of_length in *. cbn [planetes].
  apply Forall_map. unfold record_trail. cbn [trail].
  apply Forall_forall. intros p Hp.
  assert (Ht : In (trail p) (map trail (planetes w))).
  { erewrite <- write_back_trails. apply in_map. exact Hp. }
  apply in_map_iff in Ht as [q [Hq Hin]].
  rewrite Forall_forall in Hb. specialize (Hb q Hin). rewrite Hq in Hb.
  rewrite trail_push_length, Hb by lia. lia.
Qed.

Lemma run_frames_trail_lengths solve hzo evs w w' n :
  trails_of_length n (planetes w) -> run_frames solve hzo w evs = Ret w' ->
  trails_of_length (n + length evs) (planetes w').
Proof.
  revert w n. induction evs as [|ev evs IH]; intros w n Hb Hr; cbn [run_frames] in Hr.
  - injection Hr as <-. rewrite Nat.add_0_r. exact Hb.
  - destruct (frame solve hzo w ev) as [w1|e] eqn:Hf; [|discriminate].
    cbn [bind] in Hr. cbn [length]. rewrite <- Nat.add_succ_comm.
    apply (IH w1); [|exact Hr]. apply (frame_trail_lengths _ _ _ _ _ _ Hb Hf).
Qed.

(** X17: [play_orbit] empties every trail at setup, and after [k] frames
    each planet's trail holds exactly [min(k, 400)] positions. *)
Theorem play_orbit_trail_lengths solve hzo pl st0 d0 evs w :
  play_orbit solve hzo pl st0 d0 evs = Ret w ->
  Forall (fun p => length (trail p) = Nat.min (length evs) 400) (planetes w).
Proof.
  intro H. unfold play_orbit in H.
  destruct (hz_setup hzo) as [u|e]; [|discriminate]. cbn [bind] in H.
  apply (run_frames_trail_lengths _ _ _ _ _ 0 ) in H; [exact H|].
  unfold trails_of_length. cbn [planetes]. apply Forall_map, Forall_forall.
  intros p _. reflexivity.
Qed.

Lemma play_orbit_trail_lengths_witness :
  exists w,
    play_orbit solve_id None [earth_at 1 0] [1; 0; 0; 3e4] 86400
      [no_events; no_events] = Ret w /\
    Forall (fun p => length (trail p) = 2%nat) (planetes w).
Proof.
  eexists. split; [reflexivity|].
  apply (play_orbit_trail_lengths solve_id None [earth_at 1 0] [1; 0; 0; 3e4] 86400
           [no_events; no_events]).
  reflexivity.
Defined.
